(** * Inventory simulation: a shallow embedding of the discrete-event engine

    The development follows the Python sources module by module:
    - [events.py]  : [EventType], [Event], [EventQueue] (on top of [heapq]);
    - [config.py]  : [ProductConfig], [SimulationConfig];
    - [models.py]  : [Product];
    - [main.py]    : [InventorySystem] and its event handlers.

    Modelling conventions.
    - Python [int] values are [Z]; the customer counters, which only ever
      count up from 0, are [nat].
    - Python [float] values (times, prices, costs) are exact rationals [Q];
      rounding is not modelled.  [float('inf')] only occurs as the result of
      [EventQueue.peek_next_time] and is the constructor [PosInf].
    - Python lists are Rocq lists; [l[-1]] is [last l] and raises
      [IndexError] on the empty list.
    - An insertion-ordered [dict] that is iterated over is an association
      list; a [dict] that is only read at fixed literal keys is a record.
    - The draws of [np.random] are read from an explicit tape [Rng] that is
      threaded through the state.
    - Exceptions are the left summand of the result type [M]. *)

From Stdlib Require Import ZArith QArith Qabs Lia Lqa Sorted.
From stdpp Require Import list strings.

Local Open Scope Z_scope.

(** ** Rational helpers *)

(** Python's [a < b] on floats. *)
Definition Qltb (a b : Q) : bool := negb (Qle_bool b a).

(** Python's [a >= b] on floats. *)
Definition Qgeb (a b : Q) : bool := Qle_bool b a.

(** ** Exceptions *)

Inductive exn : Type :=
  | ZeroDivisionError
  | IndexError
  | KeyError
  | AttributeError.

Definition M (A : Type) : Type := exn + A.

Definition ret {A} (a : A) : M A := inr a.
Definition raise {A} (e : exn) : M A := inl e.
Definition bind {A B} (m : M A) (k : A -> M B) : M B :=
  match m with
  | inl e => inl e
  | inr a => k a
  end.

Notation "x <~ m ;; k" := (bind m (fun x => k))
  (at level 100, m at next level, right associativity).

(** [l[-1]] *)
Definition last_item {A} (l : list A) : M A :=
  match last l with
  | Some x => ret x
  | None => raise IndexError
  end.

(** ** heapq

    [heappush] and [heappop] of CPython's [heapq], which [EventQueue]
    calls.  The list is the array of the binary heap; [lt] is the
    [__lt__] of the items.  The loops recurse on a counter that is given
    the number of iterations the loop can make at most. *)

Section Heapq.
Context {A : Type} (lt : A -> A -> bool).

(** [(pos - 1) >> 1] *)
Definition parent (pos : nat) : nat := Nat.shiftr (pos - 1) 1.

(** The [while pos > startpos] loop of [_siftdown], followed by
    [heap[pos] = newitem]. *)
Fixpoint siftdown_loop (n : nat) (heap : list A) (newitem : A)
    (startpos pos : nat) : list A :=
  match n with
  | O => <[pos := newitem]> heap
  | S n' =>
      if (startpos <? pos)%nat then
        let parentpos := parent pos in
        match heap !! parentpos with
        | Some par =>
            if lt newitem par
            then siftdown_loop n' (<[pos := par]> heap) newitem startpos parentpos
            else <[pos := newitem]> heap
        | None => <[pos := newitem]> heap
        end
      else <[pos := newitem]> heap
  end.

Definition siftdown (heap : list A) (startpos pos : nat) : list A :=
  match heap !! pos with
  | Some newitem => siftdown_loop pos heap newitem startpos pos
  | None => heap
  end.

(** The [while childpos < endpos] loop of [_siftup]: the smaller child is
    moved up until a leaf is reached; the result is the heap and the
    position of that leaf. *)
Fixpoint siftup_loop (n : nat) (heap : list A) (endpos pos : nat)
    : list A * nat :=
  match n with
  | O => (heap, pos)
  | S n' =>
      let childpos := (2 * pos + 1)%nat in
      if (childpos <? endpos)%nat then
        let rightpos := (childpos + 1)%nat in
        let childpos :=
          if (rightpos <? endpos)%nat then
            match heap !! childpos, heap !! rightpos with
            | Some l, Some r => if negb (lt l r) then rightpos else childpos
            | _, _ => childpos
            end
          else childpos in
        match heap !! childpos with
        | Some c => siftup_loop n' (<[pos := c]> heap) endpos childpos
        | None => (heap, pos)
        end
      else (heap, pos)
  end.

Definition siftup (heap : list A) (pos : nat) : list A :=
  let endpos := length heap in
  let startpos := pos in
  match heap !! pos with
  | Some newitem =>
      let '(heap', pos') := siftup_loop endpos heap endpos pos in
      siftdown (<[pos' := newitem]> heap') startpos pos'
  | None => heap
  end.

Definition heappush (heap : list A) (item : A) : list A :=
  siftdown (heap ++ [item]) 0 (length heap).

(** [None] stands for the [IndexError] of [heap.pop()] on an empty
    list. *)
Definition heappop (heap : list A) : option (A * list A) :=
  match last heap with
  | None => None
  | Some lastelt =>
      match removelast heap with
      | [] => Some (lastelt, [])
      | returnitem :: rest =>
          Some (returnitem, siftup (lastelt :: rest) 0)
      end
  end.
End Heapq.

(** ** events.py *)

Inductive EventType : Type :=
  | CUSTOMER_ARRIVAL
  | ORDER_ARRIVAL.

Definition EventType_eqb (a b : EventType) : bool :=
  match a, b with
  | CUSTOMER_ARRIVAL, CUSTOMER_ARRIVAL => true
  | ORDER_ARRIVAL, ORDER_ARRIVAL => true
  | _, _ => false
  end.

(** [Event.data]: a dict that is either empty or carries the keys
    ["quantities"] and ["cost"]. *)
Record EventData : Type := {
  quantities : option (list (string * Z));
  cost : option Q
}.

Definition no_data : EventData := {| quantities := None; cost := None |}.

Module Event.
Record t : Type := mk {
  time : Q;
  type : EventType;
  data : EventData
}.
End Event.
Abbreviation Event := Event.t.

(** [Event.__lt__] *)
Definition Event_lt (self other : Event) : bool :=
  Qltb (Event.time self) (Event.time other).

(** A float that may be [float('inf')]. *)
Inductive xfloat : Type :=
  | Finite (q : Q)
  | PosInf.

Record EventQueue : Type := { events : list Event }.

Definition EventQueue_init : EventQueue := {| events := [] |}.

Definition add_event (self : EventQueue) (event : Event) : EventQueue :=
  {| events := heappush Event_lt (events self) event |}.

(** [get_next_event]: the event ([None] on an empty queue) and the queue
    left behind. *)
Definition get_next_event (self : EventQueue) : option Event * EventQueue :=
  match events self with
  | [] => (None, self)
  | _ :: _ =>
      match heappop Event_lt (events self) with
      | Some (e, h) => (Some e, {| events := h |})
      | None => (None, self)
      end
  end.

Definition peek_next_time (self : EventQueue) : xfloat :=
  match events self with
  | [] => PosInf
  | e :: _ => Finite (Event.time e)
  end.

(** ** config.py *)

(** [order_prices]: read at the keys ["limit"], ["above"], ["under"]. *)
Record OrderPrices : Type := {
  limit : Q;
  above : Q;
  under : Q
}.

Module ProductConfig.
Record t : Type := mk {
  initial_level : Z;
  max_level : Z;
  price : Q;
  demand_sizes : list Z;
  demand_prob : list Q;
  order_prices : OrderPrices
}.
End ProductConfig.
Abbreviation ProductConfig := ProductConfig.t.

(** [order_penalty]: read at the key ["percentage"]. *)
Record OrderPenalty : Type := {
  percentage : Q;
  time_base : Q
}.

Record SimulationConfig : Type := {
  max_time : Q;
  reorder_time : Q;
  lambda_exp : Q;
  mu_order : Q;
  sigma_order : Q;
  holding_cost : Q;
  order_base_cost : Q;
  order_penalty : OrderPenalty
}.

(** ** models.py *)

(** [Product.history], a dict with a fixed set of keys. *)
Module History.
Record t : Type := mk {
  level : list Z;
  total_benefit : list Q;
  benefits : list Q;
  loss_sales : list Q;
  sin_inventario : list Q;
  perdidas : Q
}.

Definition set_level (h : t) (v : list Z) : t :=
  mk v (total_benefit h) (benefits h) (loss_sales h) (sin_inventario h) (perdidas h).
Definition set_total_benefit (h : t) (v : list Q) : t :=
  mk (level h) v (benefits h) (loss_sales h) (sin_inventario h) (perdidas h).
Definition set_benefits (h : t) (v : list Q) : t :=
  mk (level h) (total_benefit h) v (loss_sales h) (sin_inventario h) (perdidas h).
Definition set_loss_sales (h : t) (v : list Q) : t :=
  mk (level h) (total_benefit h) (benefits h) v (sin_inventario h) (perdidas h).
Definition set_sin_inventario (h : t) (v : list Q) : t :=
  mk (level h) (total_benefit h) (benefits h) (loss_sales h) v (perdidas h).
Definition set_perdidas (h : t) (v : Q) : t :=
  mk (level h) (total_benefit h) (benefits h) (loss_sales h) (sin_inventario h) v.
End History.

Record Product : Type := mkProduct {
  name : string;
  level : Z;
  max_level : Z;
  price : Q;
  demand_sizes : list Z;
  demand_prob : list Q;
  order_prices : OrderPrices;
  history : History.t
}.

Definition set_level (p : Product) (v : Z) : Product :=
  mkProduct (name p) v (max_level p) (price p) (demand_sizes p)
    (demand_prob p) (order_prices p) (history p).
Definition set_history (p : Product) (h : History.t) : Product :=
  mkProduct (name p) (level p) (max_level p) (price p) (demand_sizes p)
    (demand_prob p) (order_prices p) h.

(** [Product.__init__] *)
Definition Product_init (name : string) (config : ProductConfig) : Product :=
  {| name := name;
     level := ProductConfig.initial_level config;
     max_level := ProductConfig.max_level config;
     price := ProductConfig.price config;
     demand_sizes := ProductConfig.demand_sizes config;
     demand_prob := ProductConfig.demand_prob config;
     order_prices := ProductConfig.order_prices config;
     history :=
       {| History.level := [ProductConfig.initial_level config];
          History.total_benefit := [0%Q];
          History.benefits := [];
          History.loss_sales := [];
          History.sin_inventario := [];
          History.perdidas := 0%Q |} |}.

(** [Product.update_level] *)
Definition update_level (self : Product) (change : Z) : Product :=
  let new_level := Z.max 0 (level self + change) in
  let self := set_level self new_level in
  let trace := History.level (history self) in
  match last trace with
  | None =>
      set_history self (History.set_level (history self) (trace ++ [new_level]))
  | Some l =>
      if negb (l =? new_level)
      then set_history self (History.set_level (history self) (trace ++ [new_level]))
      else self
  end.

(** [Product.calculate_order_quantity] *)
Definition calculate_order_quantity (self : Product) : Z :=
  max_level self - level self.

(** [Product.get_order_price] *)
Definition get_order_price (self : Product) (quantity : Z) : Q :=
  if Qltb (limit (order_prices self)) (inject_Z quantity)
  then above (order_prices self)
  else under (order_prices self).

(** ** np.random

    The outcomes of the successive calls of [np.random.exponential],
    [np.random.choice] and [np.random.normal], in call order.  A draw takes
    the head of its stream; the arguments of the call (scale, population and
    weights, mean and deviation) only shape the distribution and are not
    part of the model. *)
Record Rng : Type := {
  exponential : nat -> Q;
  choice : nat -> Z;
  normal : nat -> Q
}.

Definition draw_exponential (r : Rng) : Q * Rng :=
  (exponential r O,
   {| exponential := fun n => exponential r (S n);
      choice := choice r; normal := normal r |}).

Definition draw_choice (r : Rng) : Z * Rng :=
  (choice r O,
   {| exponential := exponential r;
      choice := fun n => choice r (S n); normal := normal r |}).

Definition draw_normal (r : Rng) : Q * Rng :=
  (normal r O,
   {| exponential := exponential r;
      choice := choice r; normal := fun n => normal r (S n) |}).

(** ** Insertion-ordered dicts with string keys *)

(** [d[k]] *)
Fixpoint dict_get {V} (d : list (string * V)) (k : string) : M V :=
  match d with
  | [] => raise KeyError
  | (k', v) :: d' => if String.eqb k' k then ret v else dict_get d' k
  end.

(** [d[k] = v] *)
Fixpoint dict_set {V} (d : list (string * V)) (k : string) (v : V)
    : list (string * V) :=
  match d with
  | [] => [(k, v)]
  | (k', v') :: d' =>
      if String.eqb k' k then (k', v) :: d' else (k', v') :: dict_set d' k v
  end.

(** ** main.py *)

Record InventorySystem : Type := mkSystem {
  config : SimulationConfig;
  products : list (string * Product);
  event_queue : EventQueue;
  time : Q;
  beneficio : Q;
  time_points : list Q;
  order_times : list Q;
  last_order_time : Q;
  client_satisfied : nat;
  client_not_satisfied : nat;
  holding_total : Q;
  rng : Rng
}.

Definition set_products (s : InventorySystem) v : InventorySystem :=
  mkSystem (config s) v (event_queue s) (time s) (beneficio s) (time_points s)
    (order_times s) (last_order_time s) (client_satisfied s)
    (client_not_satisfied s) (holding_total s) (rng s).
Definition set_event_queue (s : InventorySystem) v : InventorySystem :=
  mkSystem (config s) (products s) v (time s) (beneficio s) (time_points s)
    (order_times s) (last_order_time s) (client_satisfied s)
    (client_not_satisfied s) (holding_total s) (rng s).
Definition set_time (s : InventorySystem) v : InventorySystem :=
  mkSystem (config s) (products s) (event_queue s) v (beneficio s) (time_points s)
    (order_times s) (last_order_time s) (client_satisfied s)
    (client_not_satisfied s) (holding_total s) (rng s).
Definition set_beneficio (s : InventorySystem) v : InventorySystem :=
  mkSystem (config s) (products s) (event_queue s) (time s) v (time_points s)
    (order_times s) (last_order_time s) (client_satisfied s)
    (client_not_satisfied s) (holding_total s) (rng s).
Definition set_time_points (s : InventorySystem) v : InventorySystem :=
  mkSystem (config s) (products s) (event_queue s) (time s) (beneficio s) v
    (order_times s) (last_order_time s) (client_satisfied s)
    (client_not_satisfied s) (holding_total s) (rng s).
Definition set_order_times (s : InventorySystem) v : InventorySystem :=
  mkSystem (config s) (products s) (event_queue s) (time s) (beneficio s)
    (time_points s) v (last_order_time s) (client_satisfied s)
    (client_not_satisfied s) (holding_total s) (rng s).
Definition set_last_order_time (s : InventorySystem) v : InventorySystem :=
  mkSystem (config s) (products s) (event_queue s) (time s) (beneficio s)
    (time_points s) (order_times s) v (client_satisfied s)
    (client_not_satisfied s) (holding_total s) (rng s).
Definition set_client_satisfied (s : InventorySystem) v : InventorySystem :=
  mkSystem (config s) (products s) (event_queue s) (time s) (beneficio s)
    (time_points s) (order_times s) (last_order_time s) v
    (client_not_satisfied s) (holding_total s) (rng s).
Definition set_client_not_satisfied (s : InventorySystem) v : InventorySystem :=
  mkSystem (config s) (products s) (event_queue s) (time s) (beneficio s)
    (time_points s) (order_times s) (last_order_time s) (client_satisfied s)
    v (holding_total s) (rng s).
Definition set_holding_total (s : InventorySystem) v : InventorySystem :=
  mkSystem (config s) (products s) (event_queue s) (time s) (beneficio s)
    (time_points s) (order_times s) (last_order_time s) (client_satisfied s)
    (client_not_satisfied s) v (rng s).
Definition set_rng (s : InventorySystem) v : InventorySystem :=
  mkSystem (config s) (products s) (event_queue s) (time s) (beneficio s)
    (time_points s) (order_times s) (last_order_time s) (client_satisfied s)
    (client_not_satisfied s) (holding_total s) v.

(** [InventorySystem.__init__]; [r] is the state of [np.random] at
    construction. *)
Definition InventorySystem_init (config : SimulationConfig)
    (products_config : list (string * ProductConfig)) (r : Rng)
    : InventorySystem :=
  {| config := config;
     products :=
       map (fun '(name, prod_config) => (name, Product_init name prod_config))
         products_config;
     event_queue := EventQueue_init;
     time := 0%Q;
     beneficio := 0%Q;
     time_points := [0%Q];
     order_times := [];
     last_order_time := 0%Q;
     client_satisfied := O;
     client_not_satisfied := O;
     holding_total := 0%Q;
     rng := r |}.

(** [a / b] on numbers *)
Definition true_div (a b : Q) : M Q :=
  if Qeq_bool b 0 then raise ZeroDivisionError else ret (a / b)%Q.

Definition Q_of_nat (n : nat) : Q := inject_Z (Z.of_nat n).

Record Statistics : Type := {
  total_profit : Q;
  satisfied_customers_ratio : Q;
  stockout_time : list (string * Q)
}.

(** The [for name, product in self.products.items()] loop of
    [get_statistics]. *)
Fixpoint stockout_loop (items : list (string * Product))
    (acc : list (string * Q)) : M (list (string * Q)) :=
  match items with
  | [] => ret acc
  | (name, product) :: items' =>
      let trace := History.level (history product) in
      let total_stockout_time :=
        length (filter (fun level => level = 0) trace) in
      ratio <~ true_div (Q_of_nat total_stockout_time) (Q_of_nat (length trace)) ;;
      let stockout_percentage := (ratio * 100)%Q in
      stockout_loop items' (dict_set acc name stockout_percentage)
  end.

(** [InventorySystem.get_statistics] *)
Definition get_statistics (self : InventorySystem) : M Statistics :=
  ratio <~ true_div (Q_of_nat (client_satisfied self))
             (Q_of_nat (client_satisfied self + client_not_satisfied self)) ;;
  per_product <~ stockout_loop (products self) [] ;;
  ret {| total_profit := beneficio self;
         satisfied_customers_ratio := ratio;
         stockout_time := per_product |}.

(** [InventorySystem._initialize_simulation] *)
Definition _initialize_simulation (self : InventorySystem)
    : bool * InventorySystem :=
  let '(first_arrival, r) := draw_exponential (rng self) in
  let self := set_rng self r in
  if Qltb (max_time (config self)) first_arrival then (false, self)
  else
    (true,
     set_event_queue self
       (add_event (event_queue self)
          (Event.mk first_arrival CUSTOMER_ARRIVAL no_data))).

(** [InventorySystem._simulation_active] *)
Definition _simulation_active (self : InventorySystem) : bool :=
  match peek_next_time (event_queue self) with
  | PosInf => false
  | Finite next_event => Qltb next_event (max_time (config self))
  end.

(** [InventorySystem._satisfy_demand]; the product object is referred to
    by its key in [self.products]. *)
Definition _satisfy_demand (self : InventorySystem) (product_key : string)
    (demand : Z) : M InventorySystem :=
  product <~ dict_get (products self) product_key ;;
  let product := update_level product (- demand) in
  let benefit := (inject_Z demand * price product)%Q in
  prev <~ last_item (History.total_benefit (history product)) ;;
  let product := set_history product
    (History.set_total_benefit (history product)
       (History.total_benefit (history product) ++ [(prev + benefit)%Q])) in
  let product := set_history product
    (History.set_benefits (history product)
       (History.benefits (history product) ++ [benefit])) in
  let self := set_products self (dict_set (products self) product_key product) in
  let self := set_beneficio self (beneficio self + benefit)%Q in
  ret (set_client_satisfied self (S (client_satisfied self))).

(** The body of [if current_level > 0:] in [_handle_shortage]. *)
Definition sell_remaining (self : InventorySystem) (product : Product)
    (demand current_level : Z) : M (InventorySystem * Product) :=
  let benefit := (inject_Z current_level * price product)%Q in
  prev <~ last_item (History.total_benefit (history product)) ;;
  let product := set_history product
    (History.set_total_benefit (history product)
       (History.total_benefit (history product) ++ [(prev + benefit)%Q])) in
  let product := set_history product
    (History.set_benefits (history product)
       (History.benefits (history product) ++ [benefit])) in
  let self := set_beneficio self (beneficio self + benefit)%Q in
  let lost_amount := (inject_Z (demand - current_level) * price product)%Q in
  let product := set_history product
    (History.set_perdidas (history product)
       (History.perdidas (history product) + lost_amount)%Q) in
  let product := set_history product
    (History.set_loss_sales (history product)
       (History.loss_sales (history product)
          ++ [History.perdidas (history product)])) in
  let product := update_level product (- current_level) in
  ret (self, product).

(** [InventorySystem._handle_shortage] *)
Definition _handle_shortage (self : InventorySystem) (product_key : string)
    (demand : Z) : M InventorySystem :=
  product <~ dict_get (products self) product_key ;;
  let current_level := level product in
  sold <~
    (if 0 <? current_level
     then sell_remaining self product demand current_level
     else ret (self, product)) ;;
  let '(self, product) := sold in
  let product := set_history product
    (History.set_sin_inventario (history product)
       (History.sin_inventario (history product) ++ [time self])) in
  let self := set_products self (dict_set (products self) product_key product) in
  ret (set_client_not_satisfied self (S (client_not_satisfied self))).

(** The [for prod_name, product in self.products.items()] loop of
    [_handle_customer_arrival], over the keys of the dict. *)
Fixpoint demand_loop (self : InventorySystem) (keys : list string)
    : M InventorySystem :=
  match keys with
  | [] => ret self
  | prod_name :: keys' =>
      product <~ dict_get (products self) prod_name ;;
      let '(demand, r) := draw_choice (rng self) in
      let self := set_rng self r in
      self <~
        (if demand <=? level product
         then _satisfy_demand self prod_name demand
         else _handle_shortage self prod_name demand) ;;
      demand_loop self keys'
  end.

(** [InventorySystem._handle_customer_arrival] *)
Definition _handle_customer_arrival (self : InventorySystem)
    : M InventorySystem :=
  let self := set_time_points self (time_points self ++ [time self]) in
  self <~ demand_loop self (map fst (products self)) ;;
  let '(gap, r) := draw_exponential (rng self) in
  let self := set_rng self r in
  let next_arrival := (time self + gap)%Q in
  if Qltb next_arrival (max_time (config self))
  then
    ret (set_event_queue self
           (add_event (event_queue self)
              (Event.mk next_arrival CUSTOMER_ARRIVAL no_data)))
  else ret self.

(** [sum(product.level for product in self.products.values())] *)
Definition sum_levels (items : list (string * Product)) : Z :=
  fold_left (fun acc item => acc + level (snd item)) items 0.

(** The [for name, product in self.products.items()] loop of
    [_place_periodic_order]: the quantities dict and the running cost. *)
Fixpoint order_loop (items : list (string * Product))
    (order_quantities : list (string * Z)) (total_order_cost : Q)
    : list (string * Z) * Q :=
  match items with
  | [] => (order_quantities, total_order_cost)
  | (name, product) :: items' =>
      let order_quantity := calculate_order_quantity product in
      let order_quantities := dict_set order_quantities name order_quantity in
      let unit_price := get_order_price product order_quantity in
      order_loop items' order_quantities
        (total_order_cost + inject_Z order_quantity * unit_price)%Q
  end.

(** The conditional expression bound to [penalty_factor]. *)
Definition penalty_factor (config : SimulationConfig) (lead_time : Q) : Q :=
  if Qltb (mu_order config) lead_time
  then (1 - percentage (order_penalty config))%Q
  else (1 + percentage (order_penalty config))%Q.

(** The [if abs(lead_time - self.config.mu_order) > 3:] block. *)
Definition apply_time_penalty (config : SimulationConfig) (lead_time : Q)
    (total_order_cost : Q) : Q :=
  if Qltb 3 (Qabs (lead_time - mu_order config))
  then (total_order_cost * penalty_factor config lead_time)%Q
  else total_order_cost.

(** [InventorySystem._place_periodic_order] *)
Definition _place_periodic_order (self : InventorySystem) : M InventorySystem :=
  let self := set_last_order_time self (time self) in
  last_point <~ last_item (time_points self) ;;
  let self := set_holding_total self
    (holding_total self
     + (time self - last_point) * holding_cost (config self)
       * inject_Z (sum_levels (products self)))%Q in
  let '(lead_time, r) := draw_normal (rng self) in
  let self := set_rng self r in
  let delivery_time := (time self + lead_time)%Q in
  let '(order_quantities, total_order_cost) :=
    order_loop (products self) [] (order_base_cost (config self)) in
  let total_order_cost :=
    apply_time_penalty (config self) lead_time total_order_cost in
  let order_data :=
    {| quantities := Some order_quantities; cost := Some total_order_cost |} in
  let self := set_event_queue self
    (add_event (event_queue self)
       (Event.mk delivery_time ORDER_ARRIVAL order_data)) in
  ret (set_order_times self (order_times self ++ [time self])).

(** The [for name, quantity in order_data["quantities"].items()] loop of
    [_handle_order_arrival]. *)
Fixpoint receive_loop (self : InventorySystem) (items : list (string * Z))
    : M InventorySystem :=
  match items with
  | [] => ret self
  | (name, quantity) :: items' =>
      product <~ dict_get (products self) name ;;
      let product := update_level product quantity in
      receive_loop (set_products self (dict_set (products self) name product))
        items'
  end.

(** [InventorySystem._handle_order_arrival] *)
Definition _handle_order_arrival (self : InventorySystem)
    (order_data : EventData) : M InventorySystem :=
  items <~ match quantities order_data with
           | Some q => ret q
           | None => raise KeyError
           end ;;
  self <~ receive_loop self items ;;
  ret (set_time_points self (time_points self ++ [time self])).

(** [InventorySystem._process_next_event] *)
Definition _process_next_event (self : InventorySystem) : M InventorySystem :=
  let '(event, q) := get_next_event (event_queue self) in
  let self := set_event_queue self q in
  match event with
  | None => raise AttributeError
  | Some event =>
      let self := set_time self (Event.time event) in
      self <~
        (if EventType_eqb (Event.type event) CUSTOMER_ARRIVAL
         then _handle_customer_arrival self
         else _handle_order_arrival self (Event.data event)) ;;
      if Qgeb (time self - last_order_time self) (reorder_time (config self))
      then _place_periodic_order self
      else ret self
  end.

(** The [while self._simulation_active():] loop of [run_simulation], cut
    off after [n] iterations: [None] when the loop is still active then. *)
Fixpoint event_loop (n : nat) (self : InventorySystem)
    : option (M InventorySystem) :=
  if _simulation_active self then
    match n with
    | O => None
    | S n' =>
        match _process_next_event self with
        | inl e => Some (raise e)
        | inr self' => event_loop n' self'
        end
    end
  else Some (ret self).

(** [InventorySystem.run_simulation] with [display_chart=False]: the
    returned number and the final state. *)
Definition run_simulation (n : nat) (self : InventorySystem)
    : option (M (Q * InventorySystem)) :=
  let '(ok, self) := _initialize_simulation self in
  if negb ok then Some (ret ((-1)%Q, self))
  else
    match event_loop n self with
    | None => None
    | Some (inl e) => Some (raise e)
    | Some (inr self) =>
        Some (stats <~ get_statistics self ;; ret (beneficio self, self))
    end.

(** ** Specification vocabulary *)

Section HeapOrder.
Context {A : Type} (lt : A -> A -> bool).

(** The heap invariant of [heapq]: no item is smaller than its parent. *)
Definition heap_ordered (h : list A) : Prop :=
  forall i x y, (0 < i)%nat -> h !! i = Some x -> h !! parent i = Some y ->
    lt x y = false.

(** The heap invariant with the slot [pos] left out: every edge that does
    not touch [pos] is ordered, and the children of [pos] are not smaller
    than the parent of [pos]. *)
Definition ordered_but (h : list A) (pos : nat) : Prop :=
  (forall i x y, (0 < i)%nat -> i <> pos -> parent i <> pos ->
     h !! i = Some x -> h !! parent i = Some y -> lt x y = false)
  /\ (forall c x y, (0 < pos)%nat -> (0 < c)%nat -> parent c = pos ->
     h !! c = Some x -> h !! parent pos = Some y -> lt x y = false).

(** The child position that one iteration of [_siftup] selects. *)
Definition smaller_child (h : list A) (endpos pos : nat) : nat :=
  if (2 * pos + 1 + 1 <? endpos)%nat
  then match h !! (2 * pos + 1)%nat, h !! (2 * pos + 1 + 1)%nat with
       | Some l, Some r =>
           if negb (lt l r) then (2 * pos + 1 + 1)%nat else (2 * pos + 1)%nat
       | _, _ => (2 * pos + 1)%nat
       end
  else (2 * pos + 1)%nat.
End HeapOrder.

Definition queue_ok (q : EventQueue) : Prop := heap_ordered Event_lt (events q).

Definition time_le (a b : Event) : Prop := (Event.time a <= Event.time b)%Q.

(** The events returned by [n] successive [get_next_event] calls, up to
    the first [None]. *)
Fixpoint pops (n : nat) (q : EventQueue) : list Event :=
  match n with
  | O => []
  | S n' =>
      match get_next_event q with
      | (Some e, q') => e :: pops n' q'
      | (None, _) => []
      end
  end.

(** A client's calls on an [EventQueue], and the queue they leave. *)
Inductive queue_call : Type :=
  | Add_event (e : Event)
  | Get_next_event.

Definition call (q : EventQueue) (c : queue_call) : EventQueue :=
  match c with
  | Add_event e => add_event q e
  | Get_next_event => snd (get_next_event q)
  end.

Definition calls (cs : list queue_call) : EventQueue :=
  fold_left call cs EventQueue_init.

(** The fields that handling the demand for one product leaves alone. *)
Definition engine_frame (s s' : InventorySystem) : Prop :=
  config s' = config s /\ event_queue s' = event_queue s /\ time s' = time s
  /\ time_points s' = time_points s /\ order_times s' = order_times s
  /\ last_order_time s' = last_order_time s
  /\ holding_total s' = holding_total s
  /\ map fst (products s') = map fst (products s).

(** The events that the first [n] iterations of the event loop pop and
    dispatch, in order. *)
Fixpoint dispatched (n : nat) (self : InventorySystem) : list Event :=
  match n with
  | O => []
  | S n' =>
      if _simulation_active self then
        match fst (get_next_event (event_queue self)), _process_next_event self with
        | Some event, inr self' => event :: dispatched n' self'
        | Some event, inl _ => [event]
        | None, _ => []
        end
      else []
  end.

(** The state after the first [n] iterations of the event loop (fewer when
    the loop ends earlier). *)
Fixpoint loop_state (n : nat) (self : InventorySystem) : M InventorySystem :=
  match n with
  | O => ret self
  | S n' =>
      if _simulation_active self
      then self' <~ _process_next_event self ;; loop_state n' self'
      else ret self
  end.

(** An order event carries quantities for known products only. *)
Definition event_ok (keys : list string) (e : Event) : Prop :=
  Event.type e = CUSTOMER_ARRIVAL
  \/ exists items,
       quantities (Event.data e) = Some items
       /\ Forall (fun kq : string * Z => fst kq ∈ keys) items.

(** The product has a cumulative-benefit trace to extend. *)
Definition has_sales_trace (kp : string * Product) : Prop :=
  History.total_benefit (history (snd kp)) <> [].

(** The states in which no handler can raise. *)
Definition well_formed (keys : list string) (s : InventorySystem) : Prop :=
  map fst (products s) = keys
  /\ Forall has_sales_trace (products s)
  /\ time_points s <> []
  /\ queue_ok (event_queue s)
  /\ Forall (event_ok keys) (events (event_queue s)).

(** The product's level is not negative. *)
Definition in_stock (kp : string * Product) : Prop := 0 <= level (snd kp).

(** ** Concrete inputs

    The single-product scenario: 10 units in stock, capacity 10, unit price
    2, every customer asks for 5 units.  Interarrival gaps and lead times
    are constant. *)

Definition example_prices : OrderPrices :=
  {| limit := 600; above := 3 # 4; under := 1 |}.

Definition example_product : Product :=
  Product_init "prod1" (ProductConfig.mk 10 10 2 [5] [1%Q] example_prices).

Definition example_config (horizon : Q) : SimulationConfig :=
  {| max_time := horizon; reorder_time := 168; lambda_exp := 3 # 2;
     mu_order := 48; sigma_order := 7 # 2; holding_cost := 2 # 10000;
     order_base_cost := 100;
     order_penalty := {| percentage := 3 # 100; time_base := 48 |} |}.

Definition example_products : list (string * ProductConfig) :=
  [("prod1"%string, ProductConfig.mk 10 10 2 [5] [1%Q] example_prices)].

Definition example_rng (gap lead_time : Q) : Rng :=
  {| exponential := fun _ => gap;
     choice := fun _ => 5;
     normal := fun _ => lead_time |}.

Definition example_system (horizon gap lead_time : Q) : InventorySystem :=
  InventorySystem_init (example_config horizon) example_products
    (example_rng gap lead_time).

Definition example_after_sales : InventorySystem :=
  set_client_satisfied (set_beneficio (example_system 100 1 60) 20) 2.

Definition example_order : EventData :=
  {| quantities := Some [("prod1"%string, 10)]; cost := Some 97%Q |}.

(** The state of the scenario after its first two arrivals: the
    stock of 10 units has been sold in two sales of 5. *)
Definition example_sold_out : InventorySystem :=
  match loop_state 2 (snd (_initialize_simulation (example_system 100 1 48))) with
  | inr s => s
  | inl _ => example_system 100 1 48
  end.

Definition example_started : InventorySystem :=
  snd (_initialize_simulation (example_system 3 1 48)).

Definition at_time (t : Q) : Event := Event.mk t CUSTOMER_ARRIVAL no_data.

Definition example_calls : list queue_call :=
  [Add_event (at_time 5); Add_event (at_time 3); Add_event (at_time 8);
   Get_next_event; Add_event (at_time 1); Add_event (at_time 4)].

(** * Properties *)

(** ** Rationals *)

Lemma Qltb_lt a b : Qltb a b = true <-> (a < b)%Q.
Proof.
  unfold Qltb. rewrite negb_true_iff.
  split; intros H.
  - apply Qnot_le_lt. intros Hle. apply Qle_bool_iff in Hle. congruence.
  - destruct (Qle_bool b a) eqn:E; [|reflexivity].
    apply Qle_bool_iff in E. exfalso. apply (Qlt_not_le _ _ H E).
Qed.

Lemma Qltb_ge a b : Qltb a b = false <-> (b <= a)%Q.
Proof.
  unfold Qltb. rewrite negb_false_iff. apply Qle_bool_iff.
Qed.

(** ** heapq: index arithmetic *)

Lemma parent_div2 i : parent i = Nat.div2 (i - 1).
Proof. reflexivity. Qed.

Lemma parent_lt i : (0 < i)%nat -> (parent i < i)%nat.
Proof.
  intros H. rewrite parent_div2.
  pose proof (Nat.div2_decr (i - 1) (i - 1)). lia.
Qed.

Lemma parent_double i : (2 * parent i + 1 = i \/ 2 * parent i + 2 = i \/ i = 0)%nat.
Proof.
  rewrite parent_div2. destruct i as [|i]; [lia|].
  replace (S i - 1)%nat with i by lia.
  pose proof (Nat.div2_odd i) as H. destruct (Nat.odd i); simpl in H; lia.
Qed.

Lemma parent_child c p : (0 < c)%nat -> parent c = p -> (c = 2 * p + 1 \/ c = 2 * p + 2)%nat.
Proof. intros H <-. pose proof (parent_double c). lia. Qed.

Lemma parent_left p : parent (2 * p + 1) = p.
Proof.
  rewrite parent_div2. replace (2 * p + 1 - 1)%nat with (2 * p)%nat by lia.
  apply Nat.div2_double.
Qed.

Lemma parent_right p : parent (2 * p + 2) = p.
Proof.
  rewrite parent_div2. replace (2 * p + 2 - 1)%nat with (S (2 * p))%nat by lia.
  apply Nat.div2_succ_double.
Qed.

(** ** heapq: the heap invariant *)

Section HeapqFacts.
Context {A : Type} (lt : A -> A -> bool).
Hypothesis lt_asym : forall a b, lt a b = true -> lt b a = false.
Hypothesis le_trans : forall a b c, lt b a = false -> lt c b = false -> lt c a = false.

#[local] Abbreviation heap_ordered := (heap_ordered lt).
#[local] Abbreviation ordered_but := (ordered_but lt).
#[local] Abbreviation smaller_child := (smaller_child lt).

Lemma lt_irrefl a : lt a a = false.
Proof. destruct (lt a a) eqn:E; [|reflexivity]. rewrite (lt_asym _ _ E) in E. discriminate. Qed.

Lemma lt_le_trans a b c : lt a b = true -> lt c b = false -> lt c a = false.
Proof. intros Hab Hcb. apply (le_trans a b c); [apply lt_asym; exact Hab | exact Hcb]. Qed.

Lemma ordered_but_insert h pos x :
  ordered_but h pos -> ordered_but (<[pos := x]> h) pos.
Proof.
  intros [H1 H2]. split.
  - intros i a b Hi Hne Hpne Ha Hb.
    rewrite list_lookup_insert_ne in Ha by congruence.
    rewrite list_lookup_insert_ne in Hb by congruence.
    eauto.
  - intros c a b Hpos Hc Hpc Ha Hb.
    pose proof (parent_lt c Hc). pose proof (parent_lt pos Hpos).
    rewrite list_lookup_insert_ne in Ha by lia.
    rewrite list_lookup_insert_ne in Hb by lia.
    eauto.
Qed.

Lemma heap_ordered_ordered_but h pos :
  heap_ordered h -> ordered_but h pos.
Proof.
  intros H. split.
  - intros i a b Hi _ _ Ha Hb. eauto.
  - intros c a b Hpos Hc Hpc Ha Hb.
    destruct (lookup_lt_is_Some_2 h pos) as [m Hm].
    { pose proof (lookup_lt_Some _ _ _ Ha). pose proof (parent_lt c Hc). lia. }
    apply (le_trans b m a).
    + apply (H pos m b Hpos Hm Hb).
    + apply (H c a m Hc Ha). rewrite Hpc. exact Hm.
Qed.

Lemma siftdown_loop_length n : forall h newitem startpos pos,
  length (siftdown_loop lt n h newitem startpos pos) = length h.
Proof.
  induction n as [|n IH]; intros h newitem startpos pos; simpl.
  - apply length_insert.
  - destruct (startpos <? pos)%nat; [|apply length_insert].
    destruct (h !! parent pos) as [par|]; [|apply length_insert].
    destruct (lt newitem par); [|apply length_insert].
    rewrite IH. apply length_insert.
Qed.

Lemma siftdown_loop_perm n : forall h newitem startpos pos,
  (pos < length h)%nat ->
  siftdown_loop lt n h newitem startpos pos ≡ₚ <[pos := newitem]> h.
Proof.
  induction n as [|n IH]; intros h newitem startpos pos Hlen; simpl.
  - reflexivity.
  - destruct (startpos <? pos)%nat eqn:Hlt; [|reflexivity].
    apply Nat.ltb_lt in Hlt.
    destruct (h !! parent pos) as [par|] eqn:Hpar; [|reflexivity].
    destruct (lt newitem par); [|reflexivity].
    assert (parent pos < pos)%nat as Hpp by (apply parent_lt; lia).
    rewrite IH by (rewrite length_insert; lia).
    rewrite <- (list_insert_insert_eq h pos par newitem).
    apply Permutation_insert_swap.
    + apply list_lookup_insert_eq. exact Hlen.
    + rewrite list_lookup_insert_ne by lia. exact Hpar.
Qed.

Lemma siftdown_loop_ordered n : forall h newitem pos,
  (pos <= n)%nat -> (pos < length h)%nat ->
  ordered_but h pos ->
  (forall c x, (0 < c)%nat -> parent c = pos -> h !! c = Some x -> lt x newitem = false) ->
  heap_ordered (siftdown_loop lt n h newitem 0 pos).
Proof.
  assert (Hexit : forall h newitem pos,
    (pos < length h)%nat -> ordered_but h pos ->
    (forall c x, (0 < c)%nat -> parent c = pos -> h !! c = Some x -> lt x newitem = false) ->
    (forall y, (0 < pos)%nat -> h !! parent pos = Some y -> lt newitem y = false) ->
    heap_ordered (<[pos := newitem]> h)).
  { intros h newitem pos Hlen [H1 H2] Hch Hpar i x y Hi Hx Hy.
    pose proof (parent_lt i Hi) as Hpi.
    destruct (decide (i = pos)) as [->|Hne].
    - rewrite list_lookup_insert_eq in Hx by exact Hlen.
      rewrite list_lookup_insert_ne in Hy by lia.
      inversion Hx; subst x. eauto.
    - rewrite list_lookup_insert_ne in Hx by congruence.
      destruct (decide (parent i = pos)) as [Hp|Hp].
      + rewrite Hp in Hy. rewrite list_lookup_insert_eq in Hy by exact Hlen.
        inversion Hy; subst y. eauto.
      + rewrite list_lookup_insert_ne in Hy by congruence. eauto. }
  induction n as [|n IH]; intros h newitem pos Hn Hlen Hord Hch; simpl.
  - apply Hexit; auto. intros y Hpos. lia.
  - destruct (0 <? pos)%nat eqn:Hlt.
    2:{ apply Nat.ltb_ge in Hlt. apply Hexit; auto. intros y Hpos. lia. }
    apply Nat.ltb_lt in Hlt.
    pose proof (parent_lt pos Hlt) as Hpp.
    destruct (h !! parent pos) as [par|] eqn:Hpar.
    2:{ apply Hexit; auto. intros y _ Hy. congruence. }
    destruct (lt newitem par) eqn:Hcmp.
    2:{ apply Hexit; auto. intros y _ Hy. congruence. }
    destruct Hord as [H1 H2].
    apply IH.
    + lia.
    + rewrite length_insert. lia.
    + split.
      * intros i x y Hi Hne Hpne Hx Hy.
        pose proof (parent_lt i Hi) as Hpi.
        destruct (decide (i = pos)) as [->|Hip]; [congruence|].
        rewrite list_lookup_insert_ne in Hx by congruence.
        destruct (decide (parent i = pos)) as [Hp|Hp].
        -- rewrite Hp in Hy. rewrite list_lookup_insert_eq in Hy by exact Hlen.
           inversion Hy; subst y. eapply H2; eauto.
        -- rewrite list_lookup_insert_ne in Hy by congruence. eauto.
      * intros c x y Hppos Hc Hpc Hx Hy.
        pose proof (parent_lt _ Hppos) as Hgp.
        rewrite list_lookup_insert_ne in Hy by lia.
        assert (lt par y = false) as Hpy.
        { apply (H1 (parent pos) par y); auto; lia. }
        destruct (decide (c = pos)) as [->|Hcp].
        -- rewrite list_lookup_insert_eq in Hx by exact Hlen.
           inversion Hx; subst x. exact Hpy.
        -- rewrite list_lookup_insert_ne in Hx by congruence.
           apply (le_trans y par x); [exact Hpy|].
           apply (H1 c x par); auto; try lia. rewrite Hpc. exact Hpar.
    + intros c x Hc Hpc Hx.
      destruct (decide (c = pos)) as [->|Hcp].
      * rewrite list_lookup_insert_eq in Hx by exact Hlen.
        inversion Hx; subst x. apply lt_asym. exact Hcmp.
      * rewrite list_lookup_insert_ne in Hx by congruence.
        apply (lt_le_trans newitem par x); [exact Hcmp|].
        apply (H1 c x par); auto; try lia. rewrite Hpc. exact Hpar.
Qed.


Lemma siftup_loop_S n h endpos pos :
  siftup_loop lt (S n) h endpos pos =
  if (2 * pos + 1 <? endpos)%nat
  then match h !! smaller_child h endpos pos with
       | Some c => siftup_loop lt n (<[pos := c]> h) endpos (smaller_child h endpos pos)
       | None => (h, pos)
       end
  else (h, pos).
Proof. reflexivity. Qed.

Lemma smaller_child_spec h pos :
  (2 * pos + 1 < length h)%nat ->
  let c := smaller_child h (length h) pos in
  (c = 2 * pos + 1 \/ c = 2 * pos + 2)%nat /\ (c < length h)%nat
  /\ forall v, h !! c = Some v ->
     forall s w, (s = 2 * pos + 1 \/ s = 2 * pos + 2)%nat -> h !! s = Some w ->
       lt w v = false.
Proof.
  intros Hleft. unfold smaller_child.
  replace (2 * pos + 2)%nat with (2 * pos + 1 + 1)%nat by lia.
  set (left := (2 * pos + 1)%nat) in *.
  destruct (left + 1 <? length h)%nat eqn:Hright.
  - apply Nat.ltb_lt in Hright.
    destruct (lookup_lt_is_Some_2 h left Hleft) as [l Hl].
    destruct (lookup_lt_is_Some_2 h (left + 1) Hright) as [r Hr].
    rewrite Hl, Hr. destruct (lt l r) eqn:Hcmp; simpl.
    + split; [lia|]. split; [lia|]. intros v Hv s w [->| ->] Hw.
      * assert (w = v) by congruence. subst. apply lt_irrefl.
      * assert (v = l) by congruence. assert (w = r) by congruence. subst.
        apply lt_asym. exact Hcmp.
    + split; [lia|]. split; [lia|]. intros v Hv s w [->| ->] Hw.
      * assert (v = r) by congruence. assert (w = l) by congruence. subst.
        exact Hcmp.
      * assert (w = v) by congruence. subst. apply lt_irrefl.
  - apply Nat.ltb_ge in Hright. split; [lia|]. split; [lia|].
    intros v Hv s w [->| ->] Hw.
    + assert (w = v) by congruence. subst. apply lt_irrefl.
    + apply lookup_lt_Some in Hw. lia.
Qed.

Lemma siftup_loop_spec n : forall h pos h' pos',
  siftup_loop lt n h (length h) pos = (h', pos') ->
  (length h - pos <= n)%nat -> (pos < length h)%nat ->
  ordered_but h pos ->
  ordered_but h' pos' /\ length h' = length h /\ (pos' < length h)%nat
  /\ (length h <= 2 * pos' + 1)%nat
  /\ (forall x, <[pos' := x]> h' ≡ₚ <[pos := x]> h).
Proof.
  induction n as [|n IH]; intros h pos h' pos' Hrun Hn Hlen Hord; [lia|].
  rewrite siftup_loop_S in Hrun.
  destruct (2 * pos + 1 <? length h)%nat eqn:Hleft.
  2:{ apply Nat.ltb_ge in Hleft. injection Hrun as <- <-.
      split; [exact Hord|]. do 3 (split; [lia|]). intros x. reflexivity. }
  apply Nat.ltb_lt in Hleft.
  pose proof (smaller_child_spec h pos Hleft) as Hc. simpl in Hc.
  set (c := smaller_child h (length h) pos) in *.
  set (left := (2 * pos + 1)%nat) in *.
  replace (2 * pos + 2)%nat with (left + 1)%nat in Hc by (subst left; lia).
  clearbody c. destruct Hc as (Hcpos & Hclen & Hmin).
  destruct (lookup_lt_is_Some_2 h c Hclen) as [v Hv].
  rewrite Hv in Hrun.
  specialize (Hmin v Hv).
  assert (Hpc : parent c = pos).
  { destruct Hcpos as [->| ->]; subst left.
    - apply parent_left.
    - replace (2 * pos + 1 + 1)%nat with (2 * pos + 2)%nat by lia. apply parent_right. }
  assert (Hcgt : (pos < c)%nat) by (subst left; lia).
  destruct Hord as [H1 H2].
  rewrite <- (length_insert h pos v) in Hrun.
  apply IH in Hrun.
  - rewrite length_insert in Hrun.
    destruct Hrun as (Ho & Hl' & Hp' & Hleaf & Hperm).
    split; [exact Ho|]. repeat split; try assumption.
    intros x. rewrite Hperm.
    rewrite <- (list_insert_insert_eq h pos v x).
    apply Permutation_insert_swap.
    + apply list_lookup_insert_eq. exact Hlen.
    + rewrite list_lookup_insert_ne by lia. exact Hv.
  - rewrite length_insert. lia.
  - rewrite length_insert. lia.
  - split.
    + intros i x y Hi Hne Hpne Hx Hy.
      pose proof (parent_lt i Hi) as Hpi.
      destruct (decide (i = pos)) as [->|Hip].
      * rewrite list_lookup_insert_eq in Hx by exact Hlen.
        rewrite list_lookup_insert_ne in Hy by lia.
        inversion Hx; subst x. apply (H2 c v y); auto; lia.
      * rewrite list_lookup_insert_ne in Hx by congruence.
        destruct (decide (parent i = pos)) as [Hp|Hp].
        -- rewrite Hp in Hy. rewrite list_lookup_insert_eq in Hy by exact Hlen.
           inversion Hy; subst y.
           apply (Hmin i x); [|exact Hx].
           destruct (parent_child i pos Hi Hp); subst left; lia.
        -- rewrite list_lookup_insert_ne in Hy by congruence. eauto.
    + intros d x y Hc0 Hd Hpd Hx Hy.
      pose proof (parent_lt d Hd) as Hpdlt.
      rewrite list_lookup_insert_ne in Hx by lia.
      rewrite Hpc in Hy. rewrite list_lookup_insert_eq in Hy by exact Hlen.
      inversion Hy; subst y.
      apply (H1 d x v); auto; try lia. rewrite Hpd. exact Hv.
Qed.

Lemma siftup_root h newitem :
  h !! 0%nat = Some newitem -> ordered_but h 0 ->
  heap_ordered (siftup lt h 0) /\ siftup lt h 0 ≡ₚ h.
Proof.
  intros Hroot Hord. unfold siftup. rewrite Hroot.
  pose proof (lookup_lt_Some _ _ _ Hroot) as Hlen.
  destruct (siftup_loop lt (length h) h (length h) 0) as [h' pos'] eqn:Hrun.
  apply siftup_loop_spec in Hrun; [|lia|exact Hlen|exact Hord].
  destruct Hrun as (Ho & Hl' & Hp' & Hleaf & Hperm).
  unfold siftdown. rewrite list_lookup_insert_eq by lia.
  split.
  - apply siftdown_loop_ordered.
    + lia.
    + rewrite length_insert. lia.
    + apply ordered_but_insert. exact Ho.
    + intros c x Hc Hpc Hx. apply lookup_lt_Some in Hx.
      rewrite length_insert in Hx.
      destruct (parent_child c pos' Hc Hpc); lia.
  - rewrite siftdown_loop_perm by (rewrite length_insert; lia).
    rewrite list_insert_insert_eq. rewrite Hperm.
    rewrite list_insert_id by exact Hroot. reflexivity.
Qed.

Lemma heap_ordered_nil : heap_ordered [].
Proof. intros i x y _ Hx. rewrite lookup_nil in Hx. discriminate. Qed.

Lemma heap_ordered_prefix h x : heap_ordered (h ++ [x]) -> heap_ordered h.
Proof.
  intros H i a b Hi Ha Hb.
  apply (H i a b Hi); apply lookup_app_l_Some; assumption.
Qed.

Lemma heappush_spec h item :
  heap_ordered h ->
  heap_ordered (heappush lt h item) /\ heappush lt h item ≡ₚ item :: h.
Proof.
  intros Hh. unfold heappush, siftdown.
  rewrite lookup_app_r by lia. rewrite Nat.sub_diag. simpl.
  split.
  - apply siftdown_loop_ordered.
    + lia.
    + rewrite length_app. simpl. lia.
    + split.
      * intros i x y Hi Hne Hpne Hx Hy.
        pose proof (parent_lt i Hi) as Hpi.
        pose proof (lookup_lt_Some _ _ _ Hx) as Hil.
        rewrite length_app in Hil. simpl in Hil.
        rewrite lookup_app_l in Hx by lia.
        rewrite lookup_app_l in Hy by lia.
        eauto.
      * intros c x y _ Hc Hpc Hx _.
        pose proof (parent_lt c Hc) as Hp.
        apply lookup_lt_Some in Hx. rewrite length_app in Hx. simpl in Hx. lia.
    + intros c x Hc Hpc Hx.
      pose proof (parent_lt c Hc) as Hp.
      apply lookup_lt_Some in Hx. rewrite length_app in Hx. simpl in Hx. lia.
  - rewrite siftdown_loop_perm by (rewrite length_app; simpl; lia).
    rewrite list_insert_id.
    + rewrite Permutation_app_comm. reflexivity.
    + rewrite lookup_app_r by lia. rewrite Nat.sub_diag. reflexivity.
Qed.

Lemma heappop_nil : heappop lt [] = None.
Proof. reflexivity. Qed.

Lemma heappop_spec h :
  heap_ordered h -> h <> [] ->
  exists e h', heappop lt h = Some (e, h') /\ head h = Some e
    /\ heap_ordered h' /\ h ≡ₚ e :: h'.
Proof.
  intros Hh Hne. unfold heappop.
  destruct (last h) as [lastelt|] eqn:Hlast.
  2:{ apply last_None in Hlast. contradiction. }
  apply last_Some in Hlast. destruct Hlast as [h0 ->].
  rewrite removelast_last.
  destruct h0 as [|returnitem rest].
  - exists lastelt, []. repeat split; auto using heap_ordered_nil.
  - exists returnitem, (siftup lt (lastelt :: rest) 0).
    destruct (siftup_root (lastelt :: rest) lastelt) as [Ho Hp].
    + reflexivity.
    + apply heap_ordered_prefix in Hh.
      split.
      * intros i x y Hi Hne0 Hpne Hx Hy.
        destruct i as [|i]; [lia|].
        destruct (parent (S i)) as [|k] eqn:Hk; [congruence|].
        simpl in Hx, Hy. apply (Hh (S i) x y Hi); [exact Hx|].
        rewrite Hk. exact Hy.
      * intros c x y Hpos. lia.
    + repeat split; auto.
      rewrite Hp. simpl. apply perm_skip.
      symmetry. apply Permutation_cons_append.
Qed.

Lemma heap_ordered_root h r :
  heap_ordered h -> h !! 0%nat = Some r ->
  forall i x, h !! i = Some x -> lt x r = false.
Proof.
  intros Hh Hr i. induction i as [i IH] using lt_wf_ind. intros x Hx.
  destruct (decide (i = 0%nat)) as [->|Hi].
  - assert (x = r) by congruence. subst. apply lt_irrefl.
  - assert (0 < i)%nat as Hpos by lia.
    pose proof (parent_lt i Hpos) as Hp.
    destruct (lookup_lt_is_Some_2 h (parent i)) as [y Hy].
    { apply lookup_lt_Some in Hx. lia. }
    apply (le_trans r y x).
    + apply (IH (parent i) Hp y Hy).
    + apply (Hh i x y Hpos Hx Hy).
Qed.

End HeapqFacts.

(** ** EventQueue *)

Lemma Event_lt_asym a b : Event_lt a b = true -> Event_lt b a = false.
Proof.
  unfold Event_lt. rewrite Qltb_lt, Qltb_ge. apply Qlt_le_weak.
Qed.

Lemma Event_le_trans a b c :
  Event_lt b a = false -> Event_lt c b = false -> Event_lt c a = false.
Proof.
  unfold Event_lt. rewrite !Qltb_ge. apply Qle_trans.
Qed.

Lemma add_event_ok q e :
  queue_ok q -> queue_ok (add_event q e) /\ events (add_event q e) ≡ₚ e :: events q.
Proof.
  intros H. apply (heappush_spec Event_lt Event_lt_asym Event_le_trans). exact H.
Qed.

Lemma get_next_event_empty q :
  events q = [] -> get_next_event q = (None, q).
Proof. intros H. unfold get_next_event. rewrite H. reflexivity. Qed.

Lemma get_next_event_ok q :
  queue_ok q -> events q <> [] ->
  exists e q', get_next_event q = (Some e, q') /\ head (events q) = Some e
    /\ queue_ok q' /\ events q ≡ₚ e :: events q'
    /\ Forall (time_le e) (events q).
Proof.
  intros Hok Hne.
  destruct (heappop_spec Event_lt Event_lt_asym Event_le_trans (events q) Hok Hne)
    as (e & h' & Hpop & Hhead & Hok' & Hperm).
  exists e, {| events := h' |}. unfold get_next_event. rewrite Hpop.
  unfold queue_ok in Hok.
  destruct (events q) as [|x l] eqn:Hev; [contradiction|].
  repeat split; auto.
  apply Forall_lookup. intros i x0 Hx0.
  unfold time_le. apply Qltb_ge.
  apply (heap_ordered_root Event_lt Event_lt_asym Event_le_trans (x :: l) e Hok) with i.
  - simpl in Hhead. exact Hhead.
  - exact Hx0.
Qed.

Lemma calls_ok cs : queue_ok (calls cs).
Proof.
  unfold calls.
  assert (H : forall q, queue_ok q -> queue_ok (fold_left call cs q)).
  { induction cs as [|c cs IH]; intros q Hq; simpl; [exact Hq|].
    apply IH. destruct c as [e|]; simpl.
    - apply add_event_ok. exact Hq.
    - destruct (events q) as [|x l] eqn:Hev.
      + rewrite get_next_event_empty by exact Hev. exact Hq.
      + destruct (get_next_event_ok q Hq) as (e & q' & Hg & _ & Hq' & _).
        { congruence. }
        rewrite Hg. exact Hq'. }
  apply H. apply heap_ordered_nil.
Qed.

Lemma pops_sorted n : forall q, queue_ok q ->
  StronglySorted time_le (pops n q) /\ (forall x, x ∈ pops n q -> x ∈ events q).
Proof.
  induction n as [|n IH]; intros q Hq; simpl.
  - split; [constructor|]. intros x Hx. inversion Hx.
  - destruct (events q) as [|x0 l] eqn:Hev.
    + rewrite get_next_event_empty by exact Hev.
      split; [constructor|]. intros x Hx. inversion Hx.
    + destruct (get_next_event_ok q Hq) as (e & q' & Hg & _ & Hq' & Hperm & Hmin).
      { congruence. }
      rewrite Hg. destruct (IH q' Hq') as [Hs Hin].
      rewrite Hev in Hperm, Hmin.
      assert (Hsub : forall x, x ∈ e :: pops n q' -> x ∈ x0 :: l).
      { intros x Hx. rewrite Hperm. apply elem_of_cons in Hx.
        destruct Hx as [->|Hx]; [left|right; auto]. }
      split; [|exact Hsub].
      constructor; [exact Hs|].
      apply Forall_forall. intros x Hx.
      rewrite Forall_forall in Hmin. apply Hmin.
      apply Hsub. right. exact Hx.
Qed.

Lemma pops_all n : forall q, queue_ok q -> length (events q) = n ->
  pops n q ≡ₚ events q.
Proof.
  induction n as [|n IH]; intros q Hq Hlen; simpl.
  - destruct (events q); [reflexivity|discriminate].
  - destruct (events q) as [|x0 l] eqn:Hev; [discriminate|].
    destruct (get_next_event_ok q Hq) as (e & q' & Hg & _ & Hq' & Hperm & _).
    { congruence. }
    rewrite Hg. rewrite Hev in Hperm. rewrite Hperm.
    apply perm_skip. apply IH; [exact Hq'|].
    apply Permutation_length in Hperm. simpl in Hperm, Hlen. lia.
Qed.

(** ** Result monad *)

Lemma bind_ret_inv {A B} (m : M A) (k : A -> M B) b :
  bind m k = ret b -> exists a, m = ret a /\ k a = ret b.
Proof. destruct m; simpl; [discriminate|]. intros H. eauto. Qed.

(** ** Dicts *)

Lemma dict_get_set_eq {V} (d : list (string * V)) k v :
  dict_get (dict_set d k v) k = ret v.
Proof.
  induction d as [|[k' v'] d IH]; simpl.
  - rewrite String.eqb_refl. reflexivity.
  - destruct (String.eqb k' k) eqn:E; simpl; rewrite E; auto.
Qed.

Lemma dict_get_set_ne {V} (d : list (string * V)) k k' v :
  k <> k' -> dict_get (dict_set d k v) k' = dict_get d k'.
Proof.
  intros Hne. induction d as [|[k0 v0] d IH]; simpl.
  - destruct (String.eqb k k') eqn:E; [|reflexivity].
    apply String.eqb_eq in E. contradiction.
  - destruct (String.eqb k0 k) eqn:E; simpl.
    + apply String.eqb_eq in E. subst k0.
      destruct (String.eqb k k') eqn:E'; [|reflexivity].
      apply String.eqb_eq in E'. contradiction.
    + rewrite IH. reflexivity.
Qed.

Lemma dict_set_keys {V} (d : list (string * V)) k v v' :
  dict_get d k = ret v -> map fst (dict_set d k v') = map fst d.
Proof.
  induction d as [|[k0 v0] d IH]; simpl; [discriminate|].
  destruct (String.eqb k0 k) eqn:E; simpl; [reflexivity|].
  intros H. rewrite IH by exact H. reflexivity.
Qed.

(** ** Product *)

Lemma update_level_level p d : level (update_level p d) = Z.max 0 (level p + d).
Proof.
  unfold update_level. simpl.
  destruct (last (History.level (history p))) as [l|]; [|reflexivity].
  destruct (negb (l =? Z.max 0 (level p + d))); reflexivity.
Qed.

Lemma update_level_nonneg p d : 0 <= level (update_level p d).
Proof. rewrite update_level_level. lia. Qed.

Lemma update_level_static p d :
  name (update_level p d) = name p /\ max_level (update_level p d) = max_level p
  /\ price (update_level p d) = price p
  /\ order_prices (update_level p d) = order_prices p
  /\ History.total_benefit (history (update_level p d)) = History.total_benefit (history p)
  /\ History.benefits (history (update_level p d)) = History.benefits (history p)
  /\ History.loss_sales (history (update_level p d)) = History.loss_sales (history p)
  /\ History.sin_inventario (history (update_level p d)) = History.sin_inventario (history p)
  /\ History.perdidas (history (update_level p d)) = History.perdidas (history p).
Proof.
  unfold update_level. simpl.
  destruct (last (History.level (history p))) as [l|]; [|repeat split].
  destruct (negb (l =? Z.max 0 (level p + d))); repeat split.
Qed.

Lemma fold_update_level_nonneg ds : forall p,
  0 <= level p -> 0 <= level (fold_left update_level ds p).
Proof.
  induction ds as [|d ds IH]; intros p Hp; simpl; [exact Hp|].
  apply IH. apply update_level_nonneg.
Qed.

(** ** Frames of the demand handlers *)

Lemma engine_frame_refl s : engine_frame s s.
Proof. repeat split. Qed.

Lemma engine_frame_trans s1 s2 s3 :
  engine_frame s1 s2 -> engine_frame s2 s3 -> engine_frame s1 s3.
Proof.
  unfold engine_frame. intros H1 H2.
  destruct H1 as (?&?&?&?&?&?&?&?), H2 as (?&?&?&?&?&?&?&?).
  repeat split; congruence.
Qed.

Lemma satisfy_demand_frame s k d s' :
  _satisfy_demand s k d = ret s' -> engine_frame s s'.
Proof.
  unfold _satisfy_demand. intros H.
  apply bind_ret_inv in H as (p & Hp & H). cbv zeta in H.
  apply bind_ret_inv in H as (prev & Hprev & H).
  injection H as <-. unfold engine_frame; simpl.
  repeat split. eapply dict_set_keys; eassumption.
Qed.

Lemma sell_remaining_frame s p d c s1 p1 :
  sell_remaining s p d c = ret (s1, p1) ->
  engine_frame s s1 /\ products s1 = products s.
Proof.
  unfold sell_remaining. intros H. cbv zeta in H.
  apply bind_ret_inv in H as (prev & Hprev & H).
  injection H as <- <-. split; [|reflexivity].
  unfold engine_frame; simpl. repeat split.
Qed.

Lemma handle_shortage_frame s k d s' :
  _handle_shortage s k d = ret s' -> engine_frame s s'.
Proof.
  unfold _handle_shortage. intros H.
  apply bind_ret_inv in H as (p & Hp & H). cbv zeta in H.
  apply bind_ret_inv in H as ([s1 p1] & Hsold & H).
  injection H as <-.
  assert (engine_frame s s1 /\ products s1 = products s) as [Hf Hprod].
  { destruct (0 <? level p).
    - eapply sell_remaining_frame; eassumption.
    - injection Hsold as <- <-. split; [apply engine_frame_refl|reflexivity]. }
  eapply engine_frame_trans; [exact Hf|].
  unfold engine_frame; simpl. repeat split.
  rewrite Hprod. eapply dict_set_keys; eassumption.
Qed.

Lemma demand_loop_frame keys : forall s s',
  demand_loop s keys = ret s' -> engine_frame s s'.
Proof.
  induction keys as [|k keys IH]; intros s s' H; simpl in H.
  - injection H as <-. apply engine_frame_refl.
  - apply bind_ret_inv in H as (p & Hp & H).
    apply bind_ret_inv in H as (s1 & Hs1 & H).
    apply IH in H.
    eapply engine_frame_trans; [|exact H].
    set (s0 := set_rng s _) in Hs1.
    assert (engine_frame s s0) as H0 by (unfold engine_frame; repeat split).
    eapply engine_frame_trans; [exact H0|].
    destruct (choice (rng s) 0 <=? level p).
    + eapply satisfy_demand_frame; eassumption.
    + eapply handle_shortage_frame; eassumption.
Qed.

Lemma receive_loop_frame items : forall s s',
  receive_loop s items = ret s' ->
  engine_frame s s' /\ beneficio s' = beneficio s
  /\ client_satisfied s' = client_satisfied s
  /\ client_not_satisfied s' = client_not_satisfied s /\ rng s' = rng s.
Proof.
  induction items as [|[k q] items IH]; intros s s' H; simpl in H.
  - injection H as <-. split; [apply engine_frame_refl|repeat split].
  - apply bind_ret_inv in H as (p & Hp & H). cbv zeta in H.
    apply IH in H. destruct H as (Hf & Hb & Hs & Hn & Hr). simpl in *.
    split; [|repeat split; assumption].
    eapply engine_frame_trans; [|exact Hf].
    unfold engine_frame; simpl. repeat split.
    eapply dict_set_keys; eassumption.
Qed.

(** ** The event handlers *)

Lemma handle_customer_arrival_spec s s' :
  _handle_customer_arrival s = ret s' ->
  config s' = config s /\ time s' = time s
  /\ time_points s' = time_points s ++ [time s]
  /\ last_order_time s' = last_order_time s
  /\ order_times s' = order_times s
  /\ holding_total s' = holding_total s
  /\ map fst (products s') = map fst (products s)
  /\ (event_queue s' = event_queue s
      \/ exists next_arrival,
           (next_arrival < max_time (config s))%Q
           /\ event_queue s' =
                add_event (event_queue s)
                  (Event.mk next_arrival CUSTOMER_ARRIVAL no_data)).
Proof.
  unfold _handle_customer_arrival. intros H. cbv zeta in H.
  apply bind_ret_inv in H as (s1 & Hloop & H).
  apply demand_loop_frame in Hloop.
  destruct Hloop as (Hc & Hq & Ht & Htp & Hot & Hlo & Hh & Hk). simpl in *.
  destruct (Qltb (time s1 + exponential (rng s1) 0) (max_time (config s1))) eqn:Hlt;
    injection H as <-; simpl.
  - repeat split; try congruence.
    right. exists (time s1 + exponential (rng s1) 0)%Q. split.
    + apply Qltb_lt in Hlt. rewrite <- Hc. exact Hlt.
    + rewrite Hq. reflexivity.
  - repeat split; try congruence. left. exact Hq.
Qed.

Lemma handle_order_arrival_spec s data s' :
  _handle_order_arrival s data = ret s' ->
  config s' = config s /\ time s' = time s
  /\ time_points s' = time_points s ++ [time s]
  /\ last_order_time s' = last_order_time s
  /\ order_times s' = order_times s
  /\ holding_total s' = holding_total s
  /\ map fst (products s') = map fst (products s)
  /\ event_queue s' = event_queue s
  /\ beneficio s' = beneficio s
  /\ client_satisfied s' = client_satisfied s
  /\ client_not_satisfied s' = client_not_satisfied s.
Proof.
  unfold _handle_order_arrival. intros H.
  apply bind_ret_inv in H as (items & Hitems & H).
  apply bind_ret_inv in H as (s1 & Hloop & H).
  apply receive_loop_frame in Hloop.
  destruct Hloop as ((Hc & Hq & Ht & Htp & Hot & Hlo & Hh & Hk) & Hb & Hs & Hn & Hr).
  injection H as <-. simpl. repeat split; congruence.
Qed.

Lemma place_periodic_order_spec s :
  match last (time_points s) with
  | None => _place_periodic_order s = raise IndexError
  | Some last_point =>
      exists s', _place_periodic_order s = ret s'
        /\ config s' = config s /\ time s' = time s
        /\ time_points s' = time_points s
        /\ products s' = products s
        /\ beneficio s' = beneficio s
        /\ client_satisfied s' = client_satisfied s
        /\ client_not_satisfied s' = client_not_satisfied s
        /\ last_order_time s' = time s
        /\ order_times s' = order_times s ++ [time s]
        /\ holding_total s' =
             (holding_total s
              + (time s - last_point) * holding_cost (config s)
                * inject_Z (sum_levels (products s)))%Q
        /\ event_queue s' =
             add_event (event_queue s)
               (Event.mk (time s + normal (rng s) 0)%Q ORDER_ARRIVAL
                  {| quantities :=
                       Some (fst (order_loop (products s) []
                                    (order_base_cost (config s))));
                     cost :=
                       Some (apply_time_penalty (config s) (normal (rng s) 0)
                               (snd (order_loop (products s) []
                                       (order_base_cost (config s))))) |})
  end.
Proof.
  unfold _place_periodic_order, last_item. simpl.
  destruct (last (time_points s)) as [last_point|]; simpl; [|reflexivity].
  destruct (order_loop (products s) [] (order_base_cost (config s))) as [qs total].
  eexists. split; [reflexivity|]. simpl. repeat split.
Qed.

Lemma heappop_head {A} (lt : A -> A -> bool) x l :
  exists h', heappop lt (x :: l) = Some (x, h').
Proof.
  unfold heappop.
  destruct (last (x :: l)) as [lastelt|] eqn:Hlast.
  2:{ apply last_None in Hlast. discriminate. }
  apply last_Some in Hlast. destruct Hlast as [h0 Hh0].
  rewrite Hh0, removelast_last.
  destruct h0 as [|y rest]; simpl in Hh0; injection Hh0 as -> ?; eauto.
Qed.

Lemma get_next_event_head q e l :
  events q = e :: l -> exists q', get_next_event q = (Some e, q').
Proof.
  intros H. unfold get_next_event. rewrite H.
  destruct (heappop_head Event_lt e l) as [h' ->]. eauto.
Qed.

Lemma simulation_active_spec s :
  _simulation_active s = true <->
  exists e l, events (event_queue s) = e :: l
    /\ (Event.time e < max_time (config s))%Q.
Proof.
  unfold _simulation_active, peek_next_time.
  destruct (events (event_queue s)) as [|e l].
  - split; [discriminate|]. intros (e & l & H & _). discriminate.
  - rewrite Qltb_lt. split.
    + intros H. eauto.
    + intros (e' & l' & H & Hlt). injection H as <- <-. exact Hlt.
Qed.

Lemma process_next_event_spec s s' :
  _process_next_event s = ret s' ->
  exists e q', get_next_event (event_queue s) = (Some e, q')
    /\ config s' = config s /\ time s' = Event.time e
    /\ last (time_points s') = Some (time s')
    /\ (holding_total s' == holding_total s)%Q
    /\ map fst (products s') = map fst (products s).
Proof.
  unfold _process_next_event. intros H.
  destruct (get_next_event (event_queue s)) as [[e|] q'] eqn:Hget; [|discriminate].
  exists e, q'. split; [reflexivity|]. cbv zeta in H.
  apply bind_ret_inv in H as (s1 & Hs1 & H).
  assert (Hh : config s1 = config s /\ time s1 = Event.time e
               /\ time_points s1 = time_points s ++ [Event.time e]
               /\ holding_total s1 = holding_total s
               /\ map fst (products s1) = map fst (products s)).
  { destruct (EventType_eqb (Event.type e) CUSTOMER_ARRIVAL).
    - apply handle_customer_arrival_spec in Hs1. simpl in Hs1. tauto.
    - apply handle_order_arrival_spec in Hs1. simpl in Hs1. tauto. }
  destruct Hh as (Hc & Ht & Htp & Hho & Hk).
  destruct (Qgeb (time s1 - last_order_time s1) (reorder_time (config s1))).
  - pose proof (place_periodic_order_spec s1) as Hp.
    rewrite Htp, last_snoc in Hp.
    destruct Hp as (s2 & Hrun & Hc2 & Ht2 & Htp2 & Hpr2 & _ & _ & _ & _ & _ & Hh2 & _).
    rewrite Hrun in H. injection H as <-.
    repeat split; try congruence.
    + rewrite Htp2, Ht2, Ht. apply last_snoc.
    + rewrite Hh2, Hho, Ht. ring.
  - injection H as <-. repeat split; try congruence.
    rewrite Htp, Ht. apply last_snoc.
Qed.

Lemma dispatched_before_horizon n : forall s,
  Forall (fun e => (Event.time e < max_time (config s))%Q) (dispatched n s).
Proof.
  induction n as [|n IH]; intros s; simpl; [constructor|].
  destruct (_simulation_active s) eqn:Hact; [|constructor].
  apply simulation_active_spec in Hact. destruct Hact as (e & l & Hev & Hlt).
  destruct (get_next_event_head _ _ _ Hev) as [q' Hget].
  rewrite Hget. simpl.
  destruct (_process_next_event s) as [err|s'] eqn:Hstep.
  - constructor; [exact Hlt|constructor].
  - constructor; [exact Hlt|].
    apply process_next_event_spec in Hstep.
    destruct Hstep as (_ & _ & _ & Hc & _). rewrite <- Hc. apply IH.
Qed.

Lemma loop_state_holding n : forall s s',
  loop_state n s = ret s' -> (holding_total s' == holding_total s)%Q.
Proof.
  induction n as [|n IH]; intros s s' H; simpl in H.
  - injection H as <-. reflexivity.
  - destruct (_simulation_active s).
    + apply bind_ret_inv in H as (s1 & Hs1 & H).
      apply IH in H. apply process_next_event_spec in Hs1.
      destruct Hs1 as (_ & _ & _ & _ & _ & _ & Hh & _).
      rewrite H. exact Hh.
    + injection H as <-. reflexivity.
Qed.

(** ** The event loop never raises *)

Lemma dict_get_elem {V} (d : list (string * V)) k :
  k ∈ map fst d -> exists v, dict_get d k = ret v /\ (k, v) ∈ d.
Proof.
  induction d as [|[k' v'] d IH]; simpl; intros H.
  - inversion H.
  - destruct (String.eqb k' k) eqn:E.
    + apply String.eqb_eq in E. subst k'. exists v'. split; [reflexivity|left].
    + apply elem_of_cons in H. destruct H as [->|H].
      * rewrite String.eqb_refl in E. discriminate.
      * destruct (IH H) as (v & Hv & Hin). exists v. split; [exact Hv|right; exact Hin].
Qed.

Lemma dict_get_ret_elem {V} (d : list (string * V)) k v :
  dict_get d k = ret v -> (k, v) ∈ d.
Proof.
  induction d as [|[k' v'] d IH]; simpl; intros H; [discriminate|].
  destruct (String.eqb k' k) eqn:E.
  - apply String.eqb_eq in E. subst k'. injection H as ->. left.
  - right. apply IH. exact H.
Qed.

Lemma dict_set_Forall {V} (P : string * V -> Prop) (d : list (string * V)) k v :
  Forall P d -> P (k, v) -> Forall P (dict_set d k v).
Proof.
  intros Hd Hv. induction d as [|[k' v'] d IH]; simpl.
  - constructor; [exact Hv|constructor].
  - inversion Hd as [|? ? Hh Ht]; subst.
    destruct (String.eqb k' k) eqn:E.
    + apply String.eqb_eq in E. subst k'. constructor; assumption.
    + constructor; [exact Hh|apply IH; exact Ht].
Qed.

Lemma dict_set_keys_elem {V} (d : list (string * V)) k v :
  forall x, x ∈ map fst (dict_set d k v) <-> x = k \/ x ∈ map fst d.
Proof.
  intros x. induction d as [|[k' v'] d IH]; simpl.
  - rewrite list_elem_of_singleton. split; [auto|].
    intros [H|H]; [exact H|inversion H].
  - destruct (String.eqb k' k) eqn:E; simpl.
    + apply String.eqb_eq in E. subst k'. rewrite elem_of_cons. tauto.
    + rewrite !elem_of_cons, IH. tauto.
Qed.

Lemma update_level_has_sales_trace k p d :
  has_sales_trace (k, p) -> has_sales_trace (k, update_level p d).
Proof.
  unfold has_sales_trace. simpl.
  destruct (update_level_static p d) as (_ & _ & _ & _ & -> & _). auto.
Qed.

Lemma satisfy_demand_total s k d :
  k ∈ map fst (products s) -> Forall has_sales_trace (products s) ->
  exists s', _satisfy_demand s k d = ret s'
    /\ Forall has_sales_trace (products s').
Proof.
  intros Hk Hall. destruct (dict_get_elem _ _ Hk) as (p & Hget & Hin).
  rewrite Forall_forall in Hall. pose proof (Hall _ Hin) as Hp.
  apply (update_level_has_sales_trace k p (- d)) in Hp.
  unfold has_sales_trace in Hp. simpl in Hp.
  unfold _satisfy_demand. rewrite Hget. simpl. unfold last_item.
  destruct (last (History.total_benefit (history (update_level p (- d))))) as [prev|] eqn:Hlast.
  2:{ apply last_None in Hlast. contradiction. }
  simpl. eexists. split; [reflexivity|]. simpl.
  apply dict_set_Forall; [apply Forall_forall; exact Hall|].
  unfold has_sales_trace. simpl. intros H. apply app_eq_nil in H. destruct H. discriminate.
Qed.

Lemma handle_shortage_total s k d :
  k ∈ map fst (products s) -> Forall has_sales_trace (products s) ->
  exists s', _handle_shortage s k d = ret s'
    /\ Forall has_sales_trace (products s').
Proof.
  intros Hk Hall. destruct (dict_get_elem _ _ Hk) as (p & Hget & Hin).
  pose proof Hall as Hall'. rewrite Forall_forall in Hall'.
  pose proof (Hall' _ Hin) as Hp. unfold has_sales_trace in Hp. simpl in Hp.
  unfold _handle_shortage. rewrite Hget. simpl.
  destruct (0 <? level p).
  - unfold sell_remaining, last_item.
    destruct (last (History.total_benefit (history p))) as [prev|] eqn:Hlast.
    2:{ apply last_None in Hlast. contradiction. }
    simpl. eexists. split; [reflexivity|]. simpl.
    apply dict_set_Forall; [exact Hall|].
    unfold has_sales_trace. simpl.
    match goal with
    | |- context [update_level ?x ?c] =>
        destruct (update_level_static x c) as (_ & _ & _ & _ & -> & _)
    end.
    simpl. intros H. apply app_eq_nil in H. destruct H. discriminate.
  - simpl. eexists. split; [reflexivity|]. simpl.
    apply dict_set_Forall; [exact Hall|]. exact Hp.
Qed.

Lemma demand_loop_total keys : forall s,
  Forall (fun k => k ∈ map fst (products s)) keys ->
  Forall has_sales_trace (products s) ->
  exists s', demand_loop s keys = ret s'
    /\ Forall has_sales_trace (products s').
Proof.
  induction keys as [|k keys IH]; intros s Hkeys Hall; simpl.
  - eauto.
  - inversion Hkeys as [|? ? Hk Hrest]; subst.
    destruct (dict_get_elem _ _ Hk) as (p & Hget & _). rewrite Hget. simpl.
    set (s0 := set_rng s _).
    assert (Hs1 : exists s1,
      (if choice (rng s) 0 <=? level p
       then _satisfy_demand s0 k (choice (rng s) 0)
       else _handle_shortage s0 k (choice (rng s) 0)) = ret s1
      /\ Forall has_sales_trace (products s1)
      /\ map fst (products s1) = map fst (products s)).
    { destruct (choice (rng s) 0 <=? level p).
      - destruct (satisfy_demand_total s0 k (choice (rng s) 0) Hk Hall) as (s1 & Hrun & H1).
        exists s1. split; [exact Hrun|]. split; [exact H1|].
        apply satisfy_demand_frame in Hrun. unfold engine_frame in Hrun. tauto.
      - destruct (handle_shortage_total s0 k (choice (rng s) 0) Hk Hall) as (s1 & Hrun & H1).
        exists s1. split; [exact Hrun|]. split; [exact H1|].
        apply handle_shortage_frame in Hrun. unfold engine_frame in Hrun. tauto. }
    destruct Hs1 as (s1 & -> & H1 & Hk1). simpl.
    apply IH; [|exact H1]. rewrite Hk1. exact Hrest.
Qed.

Lemma receive_loop_total items : forall s,
  Forall (fun kq : string * Z => fst kq ∈ map fst (products s)) items ->
  Forall has_sales_trace (products s) ->
  exists s', receive_loop s items = ret s'
    /\ Forall has_sales_trace (products s').
Proof.
  induction items as [|[k q] items IH]; intros s Hkeys Hall; simpl.
  - eauto.
  - inversion Hkeys as [|? ? Hk Hrest]; subst. simpl in Hk.
    destruct (dict_get_elem _ _ Hk) as (p & Hget & Hin). rewrite Hget. simpl.
    apply IH; simpl.
    + rewrite (dict_set_keys _ _ _ _ Hget). exact Hrest.
    + apply dict_set_Forall; [exact Hall|].
      apply update_level_has_sales_trace.
      rewrite Forall_forall in Hall. apply (Hall _ Hin).
Qed.

Lemma order_loop_keys items : forall acc total,
  forall x, x ∈ map fst (fst (order_loop items acc total)) ->
  x ∈ map fst acc \/ x ∈ map fst items.
Proof.
  induction items as [|[k p] items IH]; intros acc total x Hx; simpl in *.
  - left. exact Hx.
  - apply IH in Hx. rewrite dict_set_keys_elem in Hx.
    rewrite elem_of_cons. tauto.
Qed.

Lemma add_event_Forall (P : Event -> Prop) q e :
  queue_ok q -> Forall P (events q) -> P e ->
  queue_ok (add_event q e) /\ Forall P (events (add_event q e)).
Proof.
  intros Hok Hall He. destruct (add_event_ok q e Hok) as [Hok' Hperm].
  split; [exact Hok'|]. rewrite Hperm. constructor; assumption.
Qed.

Lemma handle_customer_arrival_total s :
  Forall has_sales_trace (products s) ->
  exists s', _handle_customer_arrival s = ret s'
    /\ Forall has_sales_trace (products s').
Proof.
  intros Hall. unfold _handle_customer_arrival. cbv zeta.
  set (s0 := set_time_points s _).
  destruct (demand_loop_total (map fst (products s0)) s0) as (s1 & Hrun & H1).
  { apply Forall_forall. auto. }
  { exact Hall. }
  rewrite Hrun. simpl.
  destruct (Qltb (time s1 + exponential (rng s1) 0) (max_time (config s1)));
    eexists; (split; [reflexivity|exact H1]).
Qed.

Lemma handle_order_arrival_total keys s e :
  map fst (products s) = keys ->
  Forall has_sales_trace (products s) ->
  event_ok keys e -> Event.type e = ORDER_ARRIVAL ->
  exists s', _handle_order_arrival s (Event.data e) = ret s'
    /\ Forall has_sales_trace (products s').
Proof.
  intros Hkeys Hall [Hc|(items & Hitems & Hin)] Htype; [congruence|].
  unfold _handle_order_arrival. rewrite Hitems. simpl.
  destruct (receive_loop_total items s) as (s1 & Hrun & H1).
  { rewrite Hkeys. exact Hin. }
  { exact Hall. }
  rewrite Hrun. simpl. eexists. split; [reflexivity|exact H1].
Qed.

Lemma process_next_event_total keys s :
  well_formed keys s -> _simulation_active s = true ->
  exists s', _process_next_event s = ret s' /\ well_formed keys s'.
Proof.
  intros (Hkeys & Hall & Htp & Hok & Hev) Hact.
  apply simulation_active_spec in Hact. destruct Hact as (e0 & l & Hevs & _).
  destruct (get_next_event_ok _ Hok) as (e & q' & Hget & _ & Hok' & Hperm & _).
  { congruence. }
  rewrite Hperm in Hev. inversion Hev as [|? ? He Hev']; subst.
  unfold _process_next_event. rewrite Hget. cbv zeta.
  set (s0 := set_time (set_event_queue s q') (Event.time e)).
  assert (Hs1 : exists s1,
    (if EventType_eqb (Event.type e) CUSTOMER_ARRIVAL
     then _handle_customer_arrival s0
     else _handle_order_arrival s0 (Event.data e)) = ret s1
    /\ Forall has_sales_trace (products s1)
    /\ map fst (products s1) = map fst (products s)
    /\ time_points s1 = time_points s ++ [Event.time e]
    /\ queue_ok (event_queue s1)
    /\ Forall (event_ok (map fst (products s))) (events (event_queue s1))).
  { destruct (Event.type e) eqn:Htype; simpl.
    - destruct (handle_customer_arrival_total s0 Hall) as (s1 & Hrun & H1).
      exists s1. split; [exact Hrun|]. split; [exact H1|].
      apply handle_customer_arrival_spec in Hrun. simpl in Hrun.
      destruct Hrun as (_ & _ & Htp1 & _ & _ & _ & Hk1 & Hq1).
      split; [exact Hk1|]. split; [exact Htp1|].
      destruct Hq1 as [->|(t & _ & ->)].
      + split; assumption.
      + apply add_event_Forall; try assumption. left. reflexivity.
    - destruct (handle_order_arrival_total (map fst (products s)) s0 e eq_refl Hall He Htype)
        as (s1 & Hrun & H1).
      exists s1. split; [exact Hrun|]. split; [exact H1|].
      apply handle_order_arrival_spec in Hrun. simpl in Hrun.
      destruct Hrun as (_ & _ & Htp1 & _ & _ & _ & Hk1 & -> & _).
      repeat split; assumption. }
  destruct Hs1 as (s1 & -> & H1 & Hk1 & Htp1 & Hq1 & Hev1). simpl.
  destruct (Qgeb (time s1 - last_order_time s1) (reorder_time (config s1))).
  - pose proof (place_periodic_order_spec s1) as Hp.
    rewrite Htp1, last_snoc in Hp.
    destruct Hp as (s2 & Hrun & _ & _ & Htp2 & Hpr2 & _ & _ & _ & _ & _ & _ & Hq2).
    exists s2. split; [exact Hrun|].
    unfold well_formed. rewrite Hpr2, Htp2, Hq2.
    split; [exact Hk1|]. split; [exact H1|].
    split; [intros H; apply app_eq_nil in H; destruct H; discriminate|].
    apply add_event_Forall; try assumption.
    right. eexists. split; [reflexivity|].
    apply Forall_forall. intros [k q] Hin. simpl.
    assert (Hk : k ∈ map fst (fst (order_loop (products s1) []
                                     (order_base_cost (config s1))))).
    { apply (list_elem_of_fmap_2 fst _ (k, q)). exact Hin. }
    apply order_loop_keys in Hk. destruct Hk as [Hk|Hk]; [inversion Hk|].
    rewrite <- Hk1. exact Hk.
  - exists s1. split; [reflexivity|].
    unfold well_formed. rewrite Htp1.
    split; [exact Hk1|]. split; [exact H1|].
    split; [intros H; apply app_eq_nil in H; destruct H; discriminate|].
    split; assumption.
Qed.

Lemma initialize_simulation_well_formed cfg pcs r :
  well_formed (map fst pcs)
    (snd (_initialize_simulation (InventorySystem_init cfg pcs r))).
Proof.
  assert (Hk : map fst (map (fun '(name, prod_config) =>
                  (name, Product_init name prod_config)) pcs) = map fst pcs).
  { induction pcs as [|[k c] pcs IH]; simpl; [reflexivity|]. rewrite IH. reflexivity. }
  assert (Hall : Forall has_sales_trace
            (map (fun '(name, prod_config) =>
                  (name, Product_init name prod_config)) pcs)).
  { induction pcs as [|[k c] pcs IH]; simpl; constructor.
    - unfold has_sales_trace. simpl. discriminate.
    - apply IH. clear -Hk. simpl in Hk. injection Hk as Hk. exact Hk. }
  unfold _initialize_simulation. simpl.
  destruct (Qltb (max_time cfg) (exponential r 0)); simpl;
    unfold well_formed; simpl.
  - split; [exact Hk|]. split; [exact Hall|]. split; [discriminate|].
    split; [apply heap_ordered_nil|constructor].
  - split; [exact Hk|]. split; [exact Hall|]. split; [discriminate|].
    apply (add_event_Forall _ EventQueue_init).
    + apply heap_ordered_nil.
    + constructor.
    + left. reflexivity.
Qed.

Lemma loop_state_total keys n : forall s,
  well_formed keys s ->
  exists s', loop_state n s = ret s' /\ well_formed keys s'.
Proof.
  induction n as [|n IH]; intros s Hwf; simpl.
  - eauto.
  - destruct (_simulation_active s) eqn:Hact; [|eauto].
    destruct (process_next_event_total keys s Hwf Hact) as (s1 & -> & Hwf1).
    simpl. apply IH. exact Hwf1.
Qed.

Lemma event_loop_never_raises keys n : forall s,
  well_formed keys s ->
  event_loop n s = None
  \/ exists s', event_loop n s = Some (ret s') /\ well_formed keys s'
       /\ _simulation_active s' = false.
Proof.
  induction n as [|n IH]; intros s Hwf; simpl.
  - destruct (_simulation_active s) eqn:Hact; [left; reflexivity|].
    right. eauto.
  - destruct (_simulation_active s) eqn:Hact; [|right; eauto].
    destruct (process_next_event_total keys s Hwf Hact) as (s1 & -> & Hwf1).
    apply IH. exact Hwf1.
Qed.

(** ** Levels stay non-negative through the engine *)

Lemma satisfy_demand_in_stock s k d s' :
  Forall in_stock (products s) -> _satisfy_demand s k d = ret s' ->
  Forall in_stock (products s').
Proof.
  intros Hall H. unfold _satisfy_demand in H.
  apply bind_ret_inv in H as (p & Hp & H). cbv zeta in H.
  apply bind_ret_inv in H as (prev & Hprev & H).
  injection H as <-. simpl.
  apply dict_set_Forall; [exact Hall|].
  unfold in_stock. simpl. apply update_level_nonneg.
Qed.

Lemma handle_shortage_in_stock s k d s' :
  Forall in_stock (products s) -> _handle_shortage s k d = ret s' ->
  Forall in_stock (products s').
Proof.
  intros Hall H. unfold _handle_shortage in H.
  apply bind_ret_inv in H as (p & Hp & H). cbv zeta in H.
  apply bind_ret_inv in H as ([s1 p1] & Hsold & H).
  injection H as <-. simpl.
  assert (Hs1 : products s1 = products s /\ 0 <= level p1).
  { destruct (0 <? level p).
    - unfold sell_remaining in Hsold. cbv zeta in Hsold.
      apply bind_ret_inv in Hsold as (prev & Hprev & Hsold).
      injection Hsold as <- <-. split; [reflexivity|apply update_level_nonneg].
    - injection Hsold as <- <-. split; [reflexivity|].
      apply dict_get_ret_elem in Hp. rewrite Forall_forall in Hall.
      apply (Hall _ Hp). }
  destruct Hs1 as [-> Hp1].
  apply dict_set_Forall; [exact Hall|exact Hp1].
Qed.

Lemma demand_loop_in_stock keys : forall s s',
  Forall in_stock (products s) -> demand_loop s keys = ret s' ->
  Forall in_stock (products s').
Proof.
  induction keys as [|k keys IH]; intros s s' Hall H; simpl in H.
  - injection H as <-. exact Hall.
  - apply bind_ret_inv in H as (p & Hp & H).
    apply bind_ret_inv in H as (s1 & Hs1 & H).
    eapply IH; [|exact H].
    destruct (choice (rng s) 0 <=? level p).
    + eapply satisfy_demand_in_stock; [|exact Hs1]. exact Hall.
    + eapply handle_shortage_in_stock; [|exact Hs1]. exact Hall.
Qed.

Lemma receive_loop_in_stock items : forall s s',
  Forall in_stock (products s) -> receive_loop s items = ret s' ->
  Forall in_stock (products s').
Proof.
  induction items as [|[k q] items IH]; intros s s' Hall H; simpl in H.
  - injection H as <-. exact Hall.
  - apply bind_ret_inv in H as (p & Hp & H). cbv zeta in H.
    eapply IH; [|exact H]. simpl.
    apply dict_set_Forall; [exact Hall|].
    unfold in_stock. simpl. apply update_level_nonneg.
Qed.

Lemma process_next_event_in_stock s s' :
  Forall in_stock (products s) -> _process_next_event s = ret s' ->
  Forall in_stock (products s').
Proof.
  intros Hall H. unfold _process_next_event in H.
  destruct (get_next_event (event_queue s)) as [[e|] q']; [|discriminate].
  cbv zeta in H. apply bind_ret_inv in H as (s1 & Hs1 & H).
  assert (H1 : Forall in_stock (products s1)).
  { destruct (EventType_eqb (Event.type e) CUSTOMER_ARRIVAL).
    - unfold _handle_customer_arrival in Hs1. cbv zeta in Hs1.
      apply bind_ret_inv in Hs1 as (s2 & Hloop & Hs1).
      apply demand_loop_in_stock in Hloop; [|exact Hall].
      simpl in Hs1.
      match type of Hs1 with
      | (if ?b then _ else _) = _ => destruct b
      end; injection Hs1 as <-; exact Hloop.
    - unfold _handle_order_arrival in Hs1.
      apply bind_ret_inv in Hs1 as (items & _ & Hs1).
      apply bind_ret_inv in Hs1 as (s2 & Hloop & Hs1).
      apply receive_loop_in_stock in Hloop; [|exact Hall].
      injection Hs1 as <-. exact Hloop. }
  match type of H with
  | (if ?b then _ else _) = _ => destruct b
  end.
  - pose proof (place_periodic_order_spec s1) as Hp.
    destruct (last (time_points s1)); [|rewrite Hp in H; discriminate H].
    destruct Hp as (s2 & Hrun & _ & _ & _ & Hpr & _).
    rewrite Hrun in H. injection H as <-. rewrite Hpr. exact H1.
  - injection H as <-. exact H1.
Qed.

(** ** Product levels and order prices *)

(** C8.  [update_level] sets the level to [max(0, level + change)] for any
    integer [change], so the level it leaves is never negative; any sequence
    of calls keeps a non-negative level non-negative, and after at least
    one call the level is non-negative whatever it was before.  The engine
    changes levels through [update_level] only: processing an event keeps
    all levels non-negative. *)
Theorem level_never_negative (p : Product) (deltas : list Z) :
  (forall d, level (update_level p d) = Z.max 0 (level p + d))
  /\ (forall d, 0 <= level (update_level p d))
  /\ (0 <= level p -> 0 <= level (fold_left update_level deltas p))
  /\ (deltas <> [] -> 0 <= level (fold_left update_level deltas p))
  /\ (forall s s',
        Forall in_stock (products s) -> _process_next_event s = ret s' ->
        Forall in_stock (products s')).
Proof.
  split; [apply update_level_level|].
  split; [apply update_level_nonneg|].
  split; [apply fold_update_level_nonneg|].
  split; [|apply process_next_event_in_stock].
  destruct deltas as [|d ds]; [congruence|]. intros _. simpl.
  apply fold_update_level_nonneg, update_level_nonneg.
Qed.

(** C8 on the scenario product and the changes -3, -20, +4, -1. *)
Lemma level_never_negative_witness :
  0 <= level example_product
  /\ 0 <= level (fold_left update_level [-3; -20; 4; -1] example_product).
Proof.
  assert (H : 0 <= level example_product) by (simpl; lia).
  split; [exact H|].
  destruct (level_never_negative example_product [-3; -20; 4; -1])
    as (_ & _ & Hinv & _).
  apply Hinv. exact H.
Defined.

(** C9.  [calculate_order_quantity] returns [max_level - level] of the
    product it is called on; [get_order_price q] returns the ["above"] price
    when [q] exceeds the ["limit"] and the ["under"] price otherwise (so,
    when the two prices differ, the ["above"] price exactly when [q] exceeds
    the limit).  Both are functions of the product alone and return no new
    product state. *)
Theorem order_quantity_and_price (p : Product) (q : Z) :
  calculate_order_quantity p = max_level p - level p
  /\ ((limit (order_prices p) < inject_Z q)%Q ->
      get_order_price p q = above (order_prices p))
  /\ (~ (limit (order_prices p) < inject_Z q)%Q ->
      get_order_price p q = under (order_prices p))
  /\ (above (order_prices p) <> under (order_prices p) ->
      (get_order_price p q = above (order_prices p)
       <-> (limit (order_prices p) < inject_Z q)%Q)).
Proof.
  unfold calculate_order_quantity, get_order_price.
  split; [reflexivity|].
  destruct (Qltb (limit (order_prices p)) (inject_Z q)) eqn:E.
  - apply Qltb_lt in E. repeat split; try tauto.
  - apply Qltb_ge in E. apply Qle_not_lt in E.
    repeat split; try tauto; try congruence.
Qed.

(** C9 on the scenario product, above, at and just over the limit of 600. *)
Lemma order_quantity_and_price_witness :
  get_order_price example_product 700 = (3 # 4)%Q
  /\ get_order_price example_product 600 = 1%Q
  /\ (get_order_price example_product 601 = (3 # 4)%Q
      <-> (600 < inject_Z 601)%Q).
Proof.
  destruct (order_quantity_and_price example_product 700) as (_ & Habove & _).
  destruct (order_quantity_and_price example_product 600) as (_ & _ & Hunder & _).
  destruct (order_quantity_and_price example_product 601) as (_ & _ & _ & Hiff).
  split; [|split].
  - apply Habove. reflexivity.
  - apply Hunder. intros H. discriminate H.
  - apply Hiff. discriminate.
Defined.

(** ** The lead-time penalty *)

(** C5.  A periodic order enqueues an order arrival whose cost is the
    order's total cost times [1 - percentage] when the lead time is above
    the mean by more than 3, times [1 + percentage] when it is below the
    mean by more than 3, and the total cost itself (factor 1) when the lead
    time is within 3 of the mean. *)
Theorem periodic_order_penalty (s : InventorySystem) (last_point : Q) :
  last (time_points s) = Some last_point ->
  let lead_time := normal (rng s) 0 in
  let mean := mu_order (config s) in
  let pct := percentage (order_penalty (config s)) in
  let total_cost :=
    snd (order_loop (products s) [] (order_base_cost (config s))) in
  exists s' order_quantities final_cost,
    _place_periodic_order s = ret s'
    /\ event_queue s' =
         add_event (event_queue s)
           (Event.mk (time s + lead_time)%Q ORDER_ARRIVAL
              {| quantities := Some order_quantities;
                 cost := Some final_cost |})
    /\ ((mean < lead_time)%Q -> (3 < Qabs (lead_time - mean))%Q ->
        final_cost = (total_cost * (1 - pct))%Q)
    /\ ((lead_time < mean)%Q -> (3 < Qabs (lead_time - mean))%Q ->
        final_cost = (total_cost * (1 + pct))%Q)
    /\ ((Qabs (lead_time - mean) <= 3)%Q ->
        final_cost = total_cost /\ (final_cost == total_cost * 1)%Q).
Proof.
  intros Hlast lead_time mean pct total_cost.
  pose proof (place_periodic_order_spec s) as H. rewrite Hlast in H.
  destruct H as (s' & Hrun & _ & _ & _ & _ & _ & _ & _ & _ & _ & _ & Hq).
  exists s'. eexists. eexists.
  split; [exact Hrun|]. split; [exact Hq|].
  fold lead_time mean total_cost.
  unfold apply_time_penalty, penalty_factor. fold lead_time mean pct.
  destruct (Qltb 3 (Qabs (lead_time - mean))) eqn:Hdev.
  - apply Qltb_lt in Hdev.
    destruct (Qltb mean lead_time) eqn:Hlate.
    + apply Qltb_lt in Hlate. repeat split.
      * intros Hearly _. exfalso. apply (Qlt_irrefl mean). 
        apply Qlt_trans with lead_time; assumption.
      * exfalso. apply (Qlt_not_le _ _ Hdev). assumption.
      * exfalso. apply (Qlt_not_le _ _ Hdev). assumption.
    + apply Qltb_ge in Hlate. repeat split.
      * intros Hl _. exfalso. apply (Qlt_not_le _ _ Hl Hlate).
      * exfalso. apply (Qlt_not_le _ _ Hdev). assumption.
      * exfalso. apply (Qlt_not_le _ _ Hdev). assumption.
  - apply Qltb_ge in Hdev. repeat split.
    + intros _ H3. exfalso. apply (Qlt_not_le _ _ H3 Hdev).
    + intros _ H3. exfalso. apply (Qlt_not_le _ _ H3 Hdev).
    + ring.
Qed.

(** C5 with mean 48 and lead times 60 (late), 40 (early) and 51 (within
    the threshold). *)
Lemma periodic_order_penalty_witness :
  (exists s' order_quantities final_cost,
     _place_periodic_order (example_system 100 1 60) = ret s'
     /\ event_queue s' =
          add_event (event_queue (example_system 100 1 60))
            (Event.mk (0 + 60)%Q ORDER_ARRIVAL
               {| quantities := Some order_quantities;
                  cost := Some final_cost |})
     /\ final_cost = ((100 + inject_Z 0 * 1) * (1 - (3 # 100)))%Q)
  /\ (exists s' order_quantities final_cost,
     _place_periodic_order (example_system 100 1 40) = ret s'
     /\ event_queue s' =
          add_event (event_queue (example_system 100 1 40))
            (Event.mk (0 + 40)%Q ORDER_ARRIVAL
               {| quantities := Some order_quantities;
                  cost := Some final_cost |})
     /\ final_cost = ((100 + inject_Z 0 * 1) * (1 + (3 # 100)))%Q)
  /\ (exists s' order_quantities final_cost,
     _place_periodic_order (example_system 100 1 51) = ret s'
     /\ event_queue s' =
          add_event (event_queue (example_system 100 1 51))
            (Event.mk (0 + 51)%Q ORDER_ARRIVAL
               {| quantities := Some order_quantities;
                  cost := Some final_cost |})
     /\ final_cost = (100 + inject_Z 0 * 1)%Q).
Proof.
  split; [|split].
  - destruct (periodic_order_penalty (example_system 100 1 60) 0 eq_refl)
      as (s' & qs & c & Hrun & Hq & Hlate & _ & _).
    exists s', qs, c. split; [exact Hrun|]. split; [exact Hq|].
    apply Hlate; reflexivity.
  - destruct (periodic_order_penalty (example_system 100 1 40) 0 eq_refl)
      as (s' & qs & c & Hrun & Hq & _ & Hearly & _).
    exists s', qs, c. split; [exact Hrun|]. split; [exact Hq|].
    apply Hearly; reflexivity.
  - destruct (periodic_order_penalty (example_system 100 1 51) 0 eq_refl)
      as (s' & qs & c & Hrun & Hq & _ & _ & Hnone).
    exists s', qs, c. split; [exact Hrun|]. split; [exact Hq|].
    apply Hnone. discriminate.
Defined.

(** ** Revenue and order cost *)

Lemma stockout_loop_ok items : forall acc,
  Forall (fun kp : string * Product => History.level (history (snd kp)) <> []) items ->
  exists out, stockout_loop items acc = ret out.
Proof.
  induction items as [|[k p] items IH]; intros acc Hall; simpl.
  - eauto.
  - inversion Hall as [|? ? Hp Hrest]; subst. simpl in Hp.
    unfold true_div.
    destruct (Qeq_bool (Q_of_nat (length (History.level (history p)))) 0) eqn:E.
    + exfalso. apply Qeq_bool_iff in E. unfold Q_of_nat, Qeq in E. simpl in E.
      destruct (History.level (history p)); [congruence|]. simpl in E. lia.
    + simpl. apply IH. exact Hrest.
Qed.

Lemma get_statistics_inv s stats :
  get_statistics s = ret stats ->
  total_profit stats = beneficio s
  /\ satisfied_customers_ratio stats =
       (Q_of_nat (client_satisfied s)
        / Q_of_nat (client_satisfied s + client_not_satisfied s))%Q
  /\ (0 < client_satisfied s + client_not_satisfied s)%nat.
Proof.
  unfold get_statistics. intros H.
  apply bind_ret_inv in H as (ratio & Hratio & H).
  apply bind_ret_inv in H as (per & Hper & H).
  injection H as <-. simpl.
  unfold true_div in Hratio.
  destruct (Qeq_bool (Q_of_nat (client_satisfied s + client_not_satisfied s)) 0) eqn:E;
    [discriminate|].
  injection Hratio as <-. repeat split.
  destruct (client_satisfied s + client_not_satisfied s)%nat; [discriminate|lia].
Qed.

Lemma event_loop_beneficio_result n s :
  forall r s', run_simulation n s = Some (ret (r, s')) ->
  r = beneficio s' \/ r = (-1)%Q.
Proof.
  unfold run_simulation. intros r s' H.
  destruct (_initialize_simulation s) as [ok s0].
  destruct (negb ok).
  - injection H as <- <-. right. reflexivity.
  - destruct (event_loop n s0) as [[e|s1]|]; try discriminate.
    injection H as H. apply bind_ret_inv in H as (st & _ & H).
    injection H as <- <-. left. reflexivity.
Qed.

(** C7.  Placing a periodic order and handling an order arrival leave the
    cumulative revenue [beneficio] unchanged, [get_statistics] reports
    [total_profit] as [beneficio], and [run_simulation] returns [beneficio]
    (or -1): the order cost is deducted nowhere. *)
Theorem order_cost_not_deducted (s : InventorySystem) :
  (forall s', _place_periodic_order s = ret s' -> beneficio s' = beneficio s)
  /\ (forall order_data s',
        _handle_order_arrival s order_data = ret s' ->
        beneficio s' = beneficio s)
  /\ (forall stats, get_statistics s = ret stats ->
        total_profit stats = beneficio s)
  /\ (forall n r s', run_simulation n s = Some (ret (r, s')) ->
        r = beneficio s' \/ r = (-1)%Q).
Proof.
  split; [|split; [|split]].
  - intros s' H. pose proof (place_periodic_order_spec s) as Hs.
    destruct (last (time_points s)); [|rewrite Hs in H; discriminate H].
    destruct Hs as (s2 & Hrun & _ & _ & _ & _ & Hb & _).
    rewrite Hrun in H. injection H as <-. exact Hb.
  - intros d s' H. apply handle_order_arrival_spec in H. tauto.
  - intros st H. apply get_statistics_inv in H. tauto.
  - intros n. apply event_loop_beneficio_result.
Qed.

(** C7 on a state with a revenue of 20. *)
Lemma order_cost_not_deducted_witness :
  (exists s', _place_periodic_order example_after_sales = ret s'
              /\ beneficio s' = 20%Q)
  /\ (exists s', _handle_order_arrival example_after_sales example_order = ret s'
                 /\ beneficio s' = 20%Q)
  /\ (exists stats, get_statistics example_after_sales = ret stats
                    /\ total_profit stats = 20%Q).
Proof.
  destruct (order_cost_not_deducted example_after_sales) as (Hp & Ha & Hs & _).
  split; [|split].
  - eexists. split; [reflexivity|]. eapply Hp. reflexivity.
  - eexists. split; [reflexivity|]. eapply (Ha example_order). reflexivity.
  - eexists. split; [reflexivity|]. eapply Hs. reflexivity.
Defined.

(** ** Statistics *)

Lemma Q_of_nat_pos n : (0 < n)%nat -> Qeq_bool (Q_of_nat n) 0 = false.
Proof.
  intros H. destruct (Qeq_bool (Q_of_nat n) 0) eqn:E; [|reflexivity].
  apply Qeq_bool_iff in E. unfold Q_of_nat, Qeq in E. simpl in E. lia.
Qed.

(** C3 as stated fails: with both customer counters at zero,
    [get_statistics] raises [ZeroDivisionError]. *)
Lemma statistics_without_customers :
  ~ (forall s : InventorySystem,
       client_satisfied s = O -> client_not_satisfied s = O ->
       get_statistics s <> raise ZeroDivisionError).
Proof.
  intros H. apply (H (example_system 100 1 48)); reflexivity.
Qed.

(** C3, amended.  With both customer counters at zero [get_statistics]
    raises [ZeroDivisionError]; with at least one customer counted (and
    non-empty level traces) it returns, and the ratio it reports is
    satisfied / (satisfied + unsatisfied). *)
Theorem satisfied_ratio_or_division_error (s : InventorySystem) :
  (client_satisfied s = O -> client_not_satisfied s = O ->
   get_statistics s = raise ZeroDivisionError)
  /\ ((0 < client_satisfied s + client_not_satisfied s)%nat ->
      Forall (fun kp : string * Product =>
                History.level (history (snd kp)) <> []) (products s) ->
      exists stats,
        get_statistics s = ret stats
        /\ satisfied_customers_ratio stats =
             (Q_of_nat (client_satisfied s)
              / Q_of_nat (client_satisfied s + client_not_satisfied s))%Q)
  /\ (forall stats, get_statistics s = ret stats ->
        (0 < client_satisfied s + client_not_satisfied s)%nat
        /\ satisfied_customers_ratio stats =
             (Q_of_nat (client_satisfied s)
              / Q_of_nat (client_satisfied s + client_not_satisfied s))%Q).
Proof.
  split; [|split].
  - intros H1 H2. unfold get_statistics. rewrite H1, H2. reflexivity.
  - intros Hpos Hall. unfold get_statistics, true_div.
    rewrite (Q_of_nat_pos _ Hpos). simpl.
    destruct (stockout_loop_ok (products s) [] Hall) as [out ->]. simpl.
    eexists. split; reflexivity.
  - intros stats H. apply get_statistics_inv in H. tauto.
Qed.

(** C3 (amended) on the fresh scenario and on a state with two satisfied
    customers. *)
Lemma satisfied_ratio_or_division_error_witness :
  get_statistics (example_system 100 1 48) = raise ZeroDivisionError
  /\ (exists stats,
        get_statistics example_after_sales = ret stats
        /\ satisfied_customers_ratio stats = (inject_Z 2 / inject_Z 2)%Q).
Proof.
  destruct (satisfied_ratio_or_division_error (example_system 100 1 48)) as (Hzero & _ & _).
  destruct (satisfied_ratio_or_division_error example_after_sales) as (_ & Hsome & _).
  split.
  - apply Hzero; reflexivity.
  - apply Hsome.
    + simpl. lia.
    + repeat constructor. discriminate.
Defined.

(** ** Shortages *)

(** The shortage branch with stock left: the remaining units are sold, the
    rest of the demand is added to the lost revenue, and sold plus lost
    revenue make up demand times price. *)
Lemma shortage_with_partial_stock (s : InventorySystem) (key : string)
    (p : Product) (demand : Z) (prev : Q) :
  dict_get (products s) key = ret p ->
  0 < level p ->
  last (History.total_benefit (history p)) = Some prev ->
  exists s' p',
    _handle_shortage s key demand = ret s'
    /\ dict_get (products s') key = ret p'
    /\ beneficio s' = (beneficio s + inject_Z (level p) * price p)%Q
    /\ History.perdidas (history p') =
         (History.perdidas (history p)
          + inject_Z (demand - level p) * price p)%Q
    /\ (inject_Z (level p) * price p + inject_Z (demand - level p) * price p
        == inject_Z demand * price p)%Q
    /\ level p' = 0
    /\ History.sin_inventario (history p') =
         History.sin_inventario (history p) ++ [time s]
    /\ client_not_satisfied s' = S (client_not_satisfied s).
Proof.
  intros Hget Hpos Hprev.
  unfold _handle_shortage. rewrite Hget. simpl.
  apply Z.ltb_lt in Hpos as Hb. rewrite Hb.
  unfold sell_remaining, last_item. rewrite Hprev. simpl.
  eexists. eexists. split; [reflexivity|]. simpl.
  split; [apply dict_get_set_eq|]. simpl.
  split; [reflexivity|].
  match goal with
  | |- context [update_level ?x ?d] =>
      destruct (update_level_static x d)
        as (_ & _ & _ & _ & _ & _ & _ & Hsin & Hper)
  end.
  split; [rewrite Hper; reflexivity|].
  split; [unfold Zminus; rewrite inject_Z_plus, inject_Z_opp; ring|].
  split; [rewrite update_level_level; simpl; lia|].
  split; [rewrite Hsin; reflexivity|reflexivity].
Qed.

(** C1, at a level of 0.  [_handle_shortage] on a product without stock
    adds no revenue, appends the clock to the stockout log and counts one
    unsatisfied customer, but leaves the cumulative lost revenue
    [perdidas] and its trace unchanged, where C1 asks for an increase of
    demand times price. *)
Theorem shortage_with_empty_stock (s : InventorySystem) (key : string)
    (p : Product) (demand : Z) :
  dict_get (products s) key = ret p ->
  level p = 0 ->
  exists s' p',
    _handle_shortage s key demand = ret s'
    /\ dict_get (products s') key = ret p'
    /\ beneficio s' = beneficio s
    /\ History.perdidas (history p') = History.perdidas (history p)
    /\ History.loss_sales (history p') = History.loss_sales (history p)
    /\ level p' = 0
    /\ History.sin_inventario (history p') =
         History.sin_inventario (history p) ++ [time s]
    /\ client_not_satisfied s' = S (client_not_satisfied s).
Proof.
  intros Hget Hzero.
  unfold _handle_shortage. rewrite Hget. simpl. rewrite Hzero. simpl.
  eexists. eexists. split; [reflexivity|]. simpl.
  split; [apply dict_get_set_eq|]. simpl. repeat split. exact Hzero.
Qed.

(** C1 on the scenario: a demand of 5 at price 2 against an empty stock
    leaves the lost revenue at 0. *)
Lemma shortage_with_empty_stock_witness :
  exists s' p',
    _handle_shortage example_sold_out "prod1" 5 = ret s'
    /\ dict_get (products s') "prod1" = ret p'
    /\ beneficio s' = 20%Q
    /\ History.perdidas (history p') = 0%Q
    /\ History.loss_sales (history p') = []
    /\ level p' = 0
    /\ History.sin_inventario (history p') = [2%Q]
    /\ client_not_satisfied s' = 1%nat.
Proof.
  destruct (dict_get (products example_sold_out) "prod1") as [e|p] eqn:Hget;
    [vm_compute in Hget; discriminate Hget|].
  assert (Hlevel : level p = 0).
  { vm_compute in Hget. injection Hget as <-. reflexivity. }
  destruct (shortage_with_empty_stock example_sold_out "prod1" p 5 Hget Hlevel)
    as (s' & p' & Hrun & Hget' & Hb & Hper & Hloss & Hl & Hsin & Hn).
  exists s', p'.
  split; [exact Hrun|]. split; [exact Hget'|].
  vm_compute in Hget. injection Hget as <-.
  repeat split; assumption.
Defined.

(** The third arrival of the scenario, run through the event loop. *)
Lemma third_arrival_of_scenario :
  exists s' p',
    loop_state 3 (snd (_initialize_simulation (example_system 100 1 48))) = ret s'
    /\ dict_get (products s') "prod1" = ret p'
    /\ client_satisfied s' = 2%nat
    /\ client_not_satisfied s' = 1%nat
    /\ beneficio s' = 20%Q
    /\ level p' = 0
    /\ History.sin_inventario (history p') = [3%Q]
    /\ History.perdidas (history p') = 0%Q
    /\ History.loss_sales (history p') = [].
Proof.
  eexists. eexists. split; [vm_compute; reflexivity|].
  split; [vm_compute; reflexivity|]. repeat split.
Qed.

(** ** Initialization *)

(** [_initialize_simulation] fails exactly when the first arrival is
    strictly beyond the horizon. *)
Lemma initialize_simulation_spec (s : InventorySystem) :
  let first_arrival := exponential (rng s) 0 in
  (fst (_initialize_simulation s) = false
   <-> (max_time (config s) < first_arrival)%Q)
  /\ (fst (_initialize_simulation s) = false ->
      event_queue (snd (_initialize_simulation s)) = event_queue s)
  /\ (fst (_initialize_simulation s) = true ->
      event_queue (snd (_initialize_simulation s)) =
        add_event (event_queue s)
          (Event.mk first_arrival CUSTOMER_ARRIVAL no_data))
  /\ config (snd (_initialize_simulation s)) = config s
  /\ holding_total (snd (_initialize_simulation s)) = holding_total s.
Proof.
  unfold _initialize_simulation. simpl.
  destruct (Qltb (max_time (config s)) (exponential (rng s) 0)) eqn:E; simpl.
  - apply Qltb_lt in E. repeat split; auto; discriminate.
  - apply Qltb_ge in E. apply Qle_not_lt in E.
    repeat split; auto; try discriminate. intros H. contradiction.
Qed.

(** C2, at the boundary.  With a first arrival drawn exactly at the horizon
    [_initialize_simulation] does not fail: it returns [True] and enqueues
    the arrival, which is never dispatched, and [run_simulation] ends in the
    division by zero of [get_statistics] instead of returning -1. *)
Theorem first_arrival_at_horizon :
  exponential (rng (example_system 1 1 48)) 0 = max_time (config (example_system 1 1 48))
  /\ fst (_initialize_simulation (example_system 1 1 48)) = true
  /\ events (event_queue (snd (_initialize_simulation (example_system 1 1 48))))
     = [Event.mk 1 CUSTOMER_ARRIVAL no_data]
  /\ (forall n,
        dispatched n (snd (_initialize_simulation (example_system 1 1 48))) = [])
  /\ (forall n,
        run_simulation n (example_system 1 1 48) = Some (raise ZeroDivisionError)).
Proof.
  split; [reflexivity|]. split; [reflexivity|]. split; [reflexivity|].
  split; intros [|n]; reflexivity.
Qed.

(** ** The queue of the engine stays a heap *)

Lemma process_next_event_queue_ok s s' :
  queue_ok (event_queue s) -> _process_next_event s = ret s' ->
  queue_ok (event_queue s').
Proof.
  intros Hok H. unfold _process_next_event in H.
  destruct (get_next_event (event_queue s)) as [[e|] q'] eqn:Hget; [|discriminate].
  assert (Hq' : queue_ok q').
  { destruct (events (event_queue s)) as [|x l] eqn:Hev.
    - rewrite get_next_event_empty in Hget by exact Hev. discriminate.
    - destruct (get_next_event_ok _ Hok) as (e0 & q0 & Hg & _ & Hq0 & _).
      { congruence. }
      rewrite Hg in Hget. injection Hget as _ <-. exact Hq0. }
  cbv zeta in H.
  apply bind_ret_inv in H as (s1 & Hs1 & H).
  assert (Hq1 : queue_ok (event_queue s1)).
  { destruct (EventType_eqb (Event.type e) CUSTOMER_ARRIVAL).
    - apply handle_customer_arrival_spec in Hs1. simpl in Hs1.
      destruct Hs1 as (_ & _ & _ & _ & _ & _ & _ & [->|(t & _ & ->)]).
      + exact Hq'.
      + apply add_event_ok. exact Hq'.
    - apply handle_order_arrival_spec in Hs1. simpl in Hs1.
      destruct Hs1 as (_ & _ & _ & _ & _ & _ & _ & -> & _). exact Hq'. }
  destruct (Qgeb (time s1 - last_order_time s1) (reorder_time (config s1))).
  - pose proof (place_periodic_order_spec s1) as Hp.
    destruct (last (time_points s1)); [|rewrite Hp in H; discriminate H].
    destruct Hp as (s2 & Hrun & _ & _ & _ & _ & _ & _ & _ & _ & _ & _ & Hq2).
    rewrite Hrun in H. injection H as <-. rewrite Hq2.
    apply add_event_ok. exact Hq1.
  - injection H as <-. exact Hq1.
Qed.

Lemma initialize_simulation_queue_ok cfg pcs r :
  queue_ok (event_queue (snd (_initialize_simulation (InventorySystem_init cfg pcs r)))).
Proof.
  unfold _initialize_simulation. simpl.
  destruct (Qltb (max_time cfg) (exponential r 0)); simpl.
  - apply heap_ordered_nil.
  - apply (add_event_ok EventQueue_init). apply heap_ordered_nil.
Qed.

Lemma loop_state_queue_ok n : forall s s',
  queue_ok (event_queue s) -> loop_state n s = ret s' ->
  queue_ok (event_queue s').
Proof.
  induction n as [|n IH]; intros s s' Hok H; simpl in H.
  - injection H as <-. exact Hok.
  - destruct (_simulation_active s).
    + apply bind_ret_inv in H as (s1 & Hs1 & H).
      eapply IH; [|exact H]. eapply process_next_event_queue_ok; eassumption.
    + injection H as <-. exact Hok.
Qed.

(** ** The horizon *)

(** C4.  Every event that the loop dispatches has a time strictly below
    the horizon, so none has a time equal to it; the loop is active exactly
    when the time at the head of the queue is below the horizon, and the
    event it then pops is that head (a minimum of the queue when the queue
    is a heap); a customer arrival enqueues its successor only with a time
    strictly below the horizon; and with an event at or beyond the horizon
    at the head, nothing is dispatched and the loop ends at once. *)
Theorem horizon_is_exclusive (n : nat) (s : InventorySystem) :
  Forall (fun e => (Event.time e < max_time (config s))%Q
                   /\ ~ (Event.time e == max_time (config s))%Q)
    (dispatched n s)
  /\ (_simulation_active s = true <->
      exists next_event,
        peek_next_time (event_queue s) = Finite next_event
        /\ (next_event < max_time (config s))%Q)
  /\ (_simulation_active s = true ->
      exists e q',
        get_next_event (event_queue s) = (Some e, q')
        /\ peek_next_time (event_queue s) = Finite (Event.time e)
        /\ (Event.time e < max_time (config s))%Q
        /\ (queue_ok (event_queue s) -> Forall (time_le e) (events (event_queue s))))
  /\ (forall s', _handle_customer_arrival s = ret s' ->
        event_queue s' = event_queue s
        \/ exists next_arrival,
             (next_arrival < max_time (config s))%Q
             /\ event_queue s' =
                  add_event (event_queue s)
                    (Event.mk next_arrival CUSTOMER_ARRIVAL no_data))
  /\ (forall e l,
        events (event_queue s) = e :: l ->
        (max_time (config s) <= Event.time e)%Q ->
        dispatched n s = [] /\ event_loop n s = Some (ret s)).
Proof.
  split; [|split; [|split; [|split]]].
  - eapply Forall_impl; [apply dispatched_before_horizon|].
    intros e Hlt. simpl in Hlt. split; [exact Hlt|].
    apply Qlt_not_eq. exact Hlt.
  - unfold _simulation_active, peek_next_time.
    destruct (events (event_queue s)) as [|e l].
    + split; [discriminate|]. intros (t & H & _). discriminate.
    + rewrite Qltb_lt. split.
      * intros H. eauto.
      * intros (t & H & Hlt). injection H as <-. exact Hlt.
  - intros Hact. apply simulation_active_spec in Hact.
    destruct Hact as (e & l & Hev & Hlt).
    destruct (get_next_event_head _ _ _ Hev) as [q' Hget].
    exists e, q'. split; [exact Hget|].
    split; [unfold peek_next_time; rewrite Hev; reflexivity|].
    split; [exact Hlt|].
    intros Hok. destruct (get_next_event_ok _ Hok) as (e0 & q0 & Hg & _ & _ & _ & Hmin).
    { congruence. }
    rewrite Hg in Hget. injection Hget as <- _. exact Hmin.
  - intros s' H. apply handle_customer_arrival_spec in H. tauto.
  - intros e l Hev Hge.
    assert (Hact : _simulation_active s = false).
    { unfold _simulation_active, peek_next_time. rewrite Hev.
      apply Qltb_ge. exact Hge. }
    destruct n; simpl; rewrite Hact; split; reflexivity.
Qed.

(** C4 on the scenario with horizon 3 (arrivals at 1 and 2 are dispatched,
    the one at 3 is not scheduled) and with horizon 1 (the first arrival
    sits at the horizon). *)
Lemma horizon_is_exclusive_witness :
  map Event.time (dispatched 10 example_started) = [1%Q; 2%Q]
  /\ Forall (fun e => (Event.time e < 3)%Q /\ ~ (Event.time e == 3)%Q)
       (dispatched 10 example_started)
  /\ (exists e q',
        get_next_event (event_queue example_started) = (Some e, q')
        /\ (Event.time e < 3)%Q)
  /\ (exists s', _handle_customer_arrival example_started = ret s')
  /\ (dispatched 10 (snd (_initialize_simulation (example_system 1 1 48))) = []
      /\ event_loop 10 (snd (_initialize_simulation (example_system 1 1 48)))
         = Some (ret (snd (_initialize_simulation (example_system 1 1 48))))).
Proof.
  destruct (horizon_is_exclusive 10 example_started)
    as (Hall & _ & Hstep & Harr & _).
  destruct (horizon_is_exclusive 10
              (snd (_initialize_simulation (example_system 1 1 48))))
    as (_ & _ & _ & _ & Hstop).
  split; [reflexivity|]. split; [exact Hall|]. split; [|split].
  - destruct (Hstep eq_refl) as (e & q' & Hget & _ & Hlt & _).
    exists e, q'. split; assumption.
  - destruct (_handle_customer_arrival example_started) as [err|s'] eqn:Hrun.
    + vm_compute in Hrun. discriminate Hrun.
    + pose proof (Harr s' eq_refl) as _. exists s'. reflexivity.
  - apply (Hstop (Event.mk 1 CUSTOMER_ARRIVAL no_data) []).
    + reflexivity.
    + discriminate.
Defined.

(** ** Holding cost *)

Lemma event_loop_holding n : forall s s',
  event_loop n s = Some (ret s') -> (holding_total s' == holding_total s)%Q.
Proof.
  induction n as [|n IH]; intros s s' H; simpl in H.
  - destruct (_simulation_active s); [discriminate|].
    injection H as <-. reflexivity.
  - destruct (_simulation_active s).
    + destruct (_process_next_event s) as [e|s1] eqn:Hs1; [discriminate|].
      apply IH in H. apply process_next_event_spec in Hs1.
      destruct Hs1 as (_ & _ & _ & _ & _ & _ & Hh & _).
      rewrite H. exact Hh.
    + injection H as <-. reflexivity.
Qed.

(** C10.  From construction on, the event loop reaches a state after any
    number of iterations (it never raises), and the holding-cost
    accumulator is 0 there and at the end of a run: both handlers
    leave the clock as the last recorded time point, a periodic order
    placed in such a state adds 0, and so every processed event leaves the
    accumulator unchanged. *)
Theorem holding_cost_never_accrues (config : SimulationConfig)
    (products_config : list (string * ProductConfig)) (r : Rng) (n : nat) :
  let started :=
    snd (_initialize_simulation (InventorySystem_init config products_config r)) in
  (exists s, loop_state n started = ret s /\ (holding_total s == 0)%Q)
  /\ (forall s, loop_state n started = ret s -> (holding_total s == 0)%Q)
  /\ (forall result s,
        run_simulation n (InventorySystem_init config products_config r)
          = Some (ret (result, s)) ->
        (holding_total s == 0)%Q)
  /\ (forall s s', _handle_customer_arrival s = ret s' ->
        time s' = time s /\ last (time_points s') = Some (time s))
  /\ (forall s order_data s', _handle_order_arrival s order_data = ret s' ->
        time s' = time s /\ last (time_points s') = Some (time s))
  /\ (forall s s', last (time_points s) = Some (time s) ->
        _place_periodic_order s = ret s' ->
        (holding_total s' == holding_total s)%Q)
  /\ (forall s s', _process_next_event s = ret s' ->
        (holding_total s' == holding_total s)%Q).
Proof.
  intros started.
  assert (Hstart : holding_total started = 0%Q).
  { unfold started, _initialize_simulation. simpl.
    destruct (Qltb (max_time config) (exponential r 0)); reflexivity. }
  split; [|split; [|split; [|split; [|split; [|split]]]]].
  - destruct (loop_state_total (map fst products_config) n started)
      as (s & Hrun & _).
    { apply initialize_simulation_well_formed. }
    exists s. split; [exact Hrun|].
    apply loop_state_holding in Hrun. rewrite Hrun, Hstart. reflexivity.
  - intros s H. apply loop_state_holding in H. rewrite H, Hstart. reflexivity.
  - intros result s H. unfold run_simulation in H.
    destruct (_initialize_simulation (InventorySystem_init config products_config r))
      as [ok s0] eqn:Hinit.
    assert (Hs0 : holding_total s0 = 0%Q).
    { exact Hstart. }
    destruct (negb ok).
    + injection H as _ <-. rewrite Hs0. reflexivity.
    + destruct (event_loop n s0) as [[e|s1]|] eqn:Hloop; try discriminate.
      injection H as H. apply bind_ret_inv in H as (st & _ & H).
      injection H as _ <-. apply event_loop_holding in Hloop.
      rewrite Hloop, Hs0. reflexivity.
  - intros s s' H. apply handle_customer_arrival_spec in H.
    destruct H as (_ & Ht & Htp & _). split; [exact Ht|].
    rewrite Htp. apply last_snoc.
  - intros s d s' H. apply handle_order_arrival_spec in H.
    destruct H as (_ & Ht & Htp & _). split; [exact Ht|].
    rewrite Htp. apply last_snoc.
  - intros s s' Hlast H. pose proof (place_periodic_order_spec s) as Hp.
    rewrite Hlast in Hp.
    destruct Hp as (s2 & Hrun & _ & _ & _ & _ & _ & _ & _ & _ & _ & Hh & _).
    rewrite Hrun in H. injection H as <-. rewrite Hh. ring.
  - intros s s' H. apply process_next_event_spec in H.
    destruct H as (_ & _ & _ & _ & _ & _ & Hh & _). exact Hh.
Qed.

(** C10 on the scenario, 170 events into a run with one order placed at
    time 168. *)
Lemma holding_cost_never_accrues_witness :
  exists s,
    loop_state 170 (snd (_initialize_simulation (example_system 400 1 48))) = ret s
    /\ order_times s = [168%Q]
    /\ (holding_total s == 0)%Q.
Proof.
  destruct (holding_cost_never_accrues (example_config 400) example_products
              (example_rng 1 48) 170) as (_ & Hinv & _).
  fold (example_system 400 1 48) in Hinv.
  destruct (loop_state 170 (snd (_initialize_simulation (example_system 400 1 48))))
    as [e|s] eqn:Hrun.
  - vm_compute in Hrun. discriminate Hrun.
  - exists s. split; [reflexivity|]. split.
    + vm_compute in Hrun. injection Hrun as <-. reflexivity.
    + apply Hinv. reflexivity.
Defined.

(** ** The queue as seen by its clients *)

Lemma calls_adds l : calls (map Add_event l) = fold_left add_event l EventQueue_init.
Proof.
  unfold calls. generalize EventQueue_init.
  induction l as [|e l IH]; intros q; simpl; [reflexivity|]. apply IH.
Qed.

Lemma fold_add_event_perm l : forall q,
  queue_ok q -> events (fold_left add_event l q) ≡ₚ rev l ++ events q.
Proof.
  induction l as [|e l IH]; intros q Hq; simpl; [reflexivity|].
  destruct (add_event_ok q e Hq) as [Hok Hperm].
  rewrite IH by exact Hok. rewrite Hperm.
  rewrite <- app_assoc. simpl. rewrite <- Permutation_middle. reflexivity.
Qed.

(** C6.  For a queue reached by any sequence of [add_event] and
    [get_next_event] calls: [add_event] adds exactly its event; on an empty
    queue [get_next_event] returns [None] and [peek_next_time] returns
    infinity; on a non-empty queue [get_next_event] removes exactly the
    event it returns, whose time is minimal among the queued events and is
    what [peek_next_time] reports; successive pops come in non-decreasing
    time order and return every queued event; in particular the pops after
    a sequence of insertions are these insertions, sorted by time. *)
Theorem event_queue_pops_in_time_order (cs : list queue_call) :
  let q := calls cs in
  (forall e, events (add_event q e) ≡ₚ e :: events q)
  /\ (events q = [] ->
      get_next_event q = (None, q) /\ peek_next_time q = PosInf)
  /\ (events q <> [] ->
      exists e q',
        get_next_event q = (Some e, q')
        /\ events q ≡ₚ e :: events q'
        /\ Forall (time_le e) (events q)
        /\ peek_next_time q = Finite (Event.time e))
  /\ (forall n, StronglySorted time_le (pops n q))
  /\ pops (length (events q)) q ≡ₚ events q
  /\ (forall l, cs = map Add_event l ->
        pops (length l) q ≡ₚ l /\ StronglySorted time_le (pops (length l) q)).
Proof.
  intros q. pose proof (calls_ok cs) as Hok. fold q in Hok.
  split; [|split; [|split; [|split; [|split]]]].
  - intros e. apply add_event_ok. exact Hok.
  - intros Hev. split; [apply get_next_event_empty; exact Hev|].
    unfold peek_next_time. rewrite Hev. reflexivity.
  - intros Hne.
    destruct (get_next_event_ok q Hok Hne) as (e & q' & Hg & Hhead & _ & Hperm & Hmin).
    exists e, q'. repeat split; try assumption.
    unfold peek_next_time. destruct (events q); [discriminate|].
    simpl in Hhead. injection Hhead as ->. reflexivity.
  - intros n. apply pops_sorted. exact Hok.
  - apply pops_all; [exact Hok|reflexivity].
  - intros l Hcs.
    assert (Hperm : events q ≡ₚ l).
    { unfold q. rewrite Hcs, calls_adds.
      rewrite fold_add_event_perm by apply heap_ordered_nil.
      simpl. rewrite app_nil_r. symmetry. apply Permutation_rev. }
    split; [|apply pops_sorted; exact Hok].
    rewrite <- Hperm at 2. rewrite <- (Permutation_length Hperm).
    apply pops_all; [exact Hok|reflexivity].
Qed.

(** C6 on the calls add 5, add 3, add 8, get, add 1, add 4. *)
Lemma event_queue_pops_in_time_order_witness :
  map Event.time (pops 4 (calls example_calls)) = [1%Q; 4%Q; 5%Q; 8%Q]
  /\ (exists e q',
        get_next_event (calls example_calls) = (Some e, q')
        /\ Forall (time_le e) (events (calls example_calls))
        /\ peek_next_time (calls example_calls) = Finite (Event.time e))
  /\ get_next_event (calls []) = (None, calls [])
  /\ peek_next_time (calls []) = PosInf
  /\ pops 3 (calls (map Add_event [at_time 5; at_time 3; at_time 8]))
     ≡ₚ [at_time 5; at_time 3; at_time 8].
Proof.
  destruct (event_queue_pops_in_time_order example_calls) as (_ & _ & Hpop & _).
  destruct (event_queue_pops_in_time_order []) as (_ & Hempty & _).
  destruct (event_queue_pops_in_time_order
              (map Add_event [at_time 5; at_time 3; at_time 8]))
    as (_ & _ & _ & _ & _ & Hadds).
  split; [reflexivity|]. split; [|split; [|split]].
  - destruct Hpop as (e & q' & Hg & _ & Hmin & Hpeek); [discriminate|].
    exists e, q'. repeat split; assumption.
  - apply Hempty. reflexivity.
  - apply Hempty. reflexivity.
  - apply (Hadds [at_time 5; at_time 3; at_time 8]). reflexivity.
Defined.
